(** * ys::SegmentTree: a shallow embedding of segment_tree.hpp

    The class keeps four fields: [m_] (number of real elements), [n_]
    (number of leaves, a power of two), [data_] (the tree, flattened like a
    binary heap) and [compare_] (a function pointer).  Its methods are
    embedded as computations over the vector [data_] that may stop with a
    fault (a failed [assert], a subscript outside the vector, a call through
    a null comparator) and that record every subscript they evaluate on
    [data_].

    [size_t] is modelled by [nat].  An input array has at most
    [PTRDIFF_MAX = 2^63 - 1] elements, so [n_ <= 2^63] and
    [m_ + n_ < 2^64] (lemma [no_wrap_alloc]); the other values the methods
    compute are slot indices below [m_ + n_], child indices below
    [2 * n_] and sums [left + right] of a cut range, below [2 * n_]: no
    [size_t] operation wraps around on an input that can exist.

    The loops take a fuel argument; every statement below that a method
    returns a result shows that the fuel the model passes is enough.

    C++ leaves the order in which the two arguments of [compare_] are
    evaluated open; the traces record the left one first. *)

From Stdlib Require Import ZArith Lia String.
From stdpp Require Import base list.

Local Open Scope nat_scope.

(** ** Faults and traces *)

(** One subscript evaluation [data_[i]], as an rvalue or as an lvalue. *)
Inductive access : Type :=
| Read (i : nat)
| Write (i : nat).

Definition slot (a : access) : nat :=
  match a with
  | Read i => i
  | Write i => i
  end.

Inductive fault : Type :=
| AssertionFailed (expr : string)  (* assert(expr) found expr false *)
| OutOfBounds (i : nat)            (* subscript i outside its array *)
| NullCompare                      (* call through a null compare_ *)
| OutOfFuel.                       (* the model's loop bound was too small *)

Inductive result (A : Type) : Type :=
| Ok (a : A)
| Fault (f : fault).

Arguments Ok {A} a.
Arguments Fault {A} f.

(** ** The shape of the tree *)

(** The leaf of element position [p] lies in the subtree of node [j]: [j] is
    reached from the leaf's slot [n + p] by halving. *)
Definition under (n j p : nat) : Prop :=
  exists t, (n + p) / 2 ^ t = j.

(** The subtree of node [j] overlaps the valid leaf positions [0..m-1]. *)
Definition overlaps (m n j : nat) : Prop :=
  exists p, p < m /\ under n j p.

(** Node [r] covers only leaves of the 1-based positions [from..to]; [s] is
    its height. *)
Definition inside (n from to r : nat) : Prop :=
  exists s, n + from <= r * 2 ^ s + 1 /\ (r + 1) * 2 ^ s <= n + to.

(** Slot [s] is met when the slot index [x] is halved once or more. *)
Definition on_path (x s : nat) : Prop :=
  exists t, 1 <= t /\ s = x / 2 ^ t.

Section Tree.

Context {T : Type}.

(** [TYPE()], the value [std::vector::resize] fills new slots with. *)
Variable dflt : T.

Definition comparator : Type := T -> T -> Z.

(** ** Computations over [data_] *)

Definition M (A : Type) : Type :=
  list T -> result (A * list T * list access).

Definition ret {A} (a : A) : M A :=
  fun d => Ok (a, d, []).

Definition bind {A B} (c : M A) (k : A -> M B) : M B :=
  fun d =>
    match c d with
    | Fault f => Fault f
    | Ok (a, d1, tr1) =>
        match k a d1 with
        | Fault f => Fault f
        | Ok (b, d2, tr2) => Ok (b, d2, tr1 ++ tr2)
        end
    end.

Definition fail {A} (f : fault) : M A :=
  fun _ => Fault f.

Notation "x <- c ;; k" := (bind c (fun x => k))
  (at level 100, c at next level, right associativity).
Notation "c ;; k" := (bind c (fun _ => k))
  (at level 100, right associativity).

(** [data_[i]] read. *)
Definition read (i : nat) : M T :=
  fun d =>
    match d !! i with
    | Some x => Ok (x, d, [Read i])
    | None => Fault (OutOfBounds i)
    end.

(** [data_[i] = v]. *)
Definition write (i : nat) (v : T) : M unit :=
  fun d =>
    if decide (i < length d)
    then Ok (tt, <[i:=v]> d, [Write i])
    else Fault (OutOfBounds i).

(** [assert(b)], where [expr] is the text of the asserted expression. *)
Definition assert (b : bool) (expr : string) : M unit :=
  fun d => if b then Ok (tt, d, []) else Fault (AssertionFailed expr).

(** [for (size_t i(start); i < n; i += step) body(i)]. *)
Fixpoint for_loop (fuel i n step : nat) (body : nat -> M unit) : M unit :=
  match fuel with
  | 0 => fail OutOfFuel
  | S fuel' =>
      if i <? n
      then body i ;; for_loop fuel' (i + step) n step body
      else ret tt
  end.

(** ** The private methods *)

Section Methods.

Variables m_ n_ : nat.
Variable compare_ : option comparator.

(** [compare_(x, y)]: a call through the stored pointer. *)
Definition call_compare (x y : T) : M Z :=
  match compare_ with
  | Some f => ret (f x y)
  | None => fail NullCompare
  end.

Definition set_leaf_simply (i : nat) (value : T) : M unit :=
  assert (i <? m_) "i < m_" ;;
  let i := i + n_ in
  write i value.

(** [if (k <= e && 0 < compare_(data_[h], data_[k])) h = k;] returning the
    new [h].  [&&] evaluates its right operand only when [k <= e]. *)
Definition choose_child (h k e : nat) : M nat :=
  if k <=? e
  then x <- read h ;;
       y <- read k ;;
       c <- call_compare x y ;;
       ret (if (0 <? c)%Z then k else h)
  else ret h.

(** The [while (0 < i)] loop of [update]. *)
Fixpoint update_loop (fuel i e : nat) : M unit :=
  match fuel with
  | 0 => fail OutOfFuel
  | S fuel' =>
      if 0 <? i then
        let i := i / 2 in
        let h := i * 2 in
        let k := h + 1 in
        h <- choose_child h k e ;;
        x <- read h ;;
        write i x ;;
        update_loop fuel' i (e / 2)
      else ret tt
  end.

Definition update (i : nat) : M unit :=
  assert (i <? m_) "i < m_" ;;
  let i := i + n_ in
  let e := m_ + n_ - 1 in
  update_loop (S i) i e.

(** Returns a tree index; [0] means that nothing was found. *)
Fixpoint get_value_sub (fuel from to index left right : nat) : M nat :=
  match fuel with
  | 0 => fail OutOfFuel
  | S fuel' =>
      if (right <? from) || (to <? left) then ret 0
      else if (from <=? left) && (right <=? to) then ret index
      else
        let center := (left + right) / 2 in
        i <- get_value_sub fuel' from to (index * 2) left center ;;
        j <- get_value_sub fuel' from to (index * 2 + 1) (center + 1) right ;;
        if j =? 0 then ret i
        else if i =? 0 then ret j
        else
          x <- read i ;;
          y <- read j ;;
          c <- call_compare x y ;;
          if (0 >=? c)%Z then ret i else ret j
  end.

(** The bodies of the public methods, as computations over [data_]. *)

Definition set_leaf_body (i : nat) (value : T) : M unit :=
  assert (i <? m_) "i < m_" ;;
  set_leaf_simply i value ;;
  update i.

Definition get_value_body (from to : nat) : M T :=
  assert (from <=? to) "from <= to" ;;
  assert (to <? m_) "to < m_" ;;
  i <- get_value_sub (S n_) (from + 1) (to + 1) 1 1 n_ ;;
  assert (negb (i =? 0)) "i" ;;
  read i.

(** The two loops of [prepare] that fill the leaves and the internal nodes. *)
Definition prepare_body (data : list T) (n : nat) : M unit :=
  for_loop (S n) 0 n 1
    (fun i =>
       match data !! i with
       | Some x => set_leaf_simply i x
       | None => fail (OutOfBounds i)
       end) ;;
  for_loop (S n) 0 n 2 update.

End Methods.

(** [n_ = 1; while (n_ < n) n_ *= 2;] *)
Fixpoint grow (fuel n_ n : nat) : result nat :=
  match fuel with
  | 0 => Fault OutOfFuel
  | S fuel' => if n_ <? n then grow fuel' (n_ * 2) n else Ok n_
  end.

(** ** The object and its public methods *)

Record SegmentTree : Type := mkTree {
  m_ : nat;
  n_ : nat;
  data_ : list T;
  compare_ : option comparator
}.

(** [SegmentTree()] *)
Definition new_tree : SegmentTree :=
  {| m_ := 0; n_ := 0; data_ := []; compare_ := None |}.

(** [prepare(data, n, compare)]: the pointer [data] and the count [n] are
    one list here, [None] standing for a null pointer. *)
Definition prepare (t : SegmentTree) (data : option (list T))
    (compare : option comparator) : result (SegmentTree * list access) :=
  match data with
  | None => Fault (AssertionFailed "data")
  | Some data =>
      let n := length data in
      if n =? 0 then Fault (AssertionFailed "n")
      else
        match compare with
        | None => Fault (AssertionFailed "compare")
        | Some _ =>
            match grow (S n) 1 n with
            | Fault f => Fault f
            | Ok n' =>
                match prepare_body n n' compare data n
                        (resize (n + n') dflt (data_ t)) with
                | Fault f => Fault f
                | Ok (_, d, tr) =>
                    Ok ({| m_ := n; n_ := n'; data_ := d;
                           compare_ := compare |}, tr)
                end
            end
        end
  end.

Definition set_leaf (t : SegmentTree) (i : nat) (value : T)
    : result (SegmentTree * list access) :=
  match set_leaf_body (m_ t) (n_ t) (compare_ t) i value (data_ t) with
  | Fault f => Fault f
  | Ok (_, d, tr) =>
      Ok ({| m_ := m_ t; n_ := n_ t; data_ := d;
             compare_ := compare_ t |}, tr)
  end.

Definition get_value (t : SegmentTree) (from to : nat)
    : result (T * list access) :=
  match get_value_body (m_ t) (n_ t) (compare_ t) from to (data_ t) with
  | Fault f => Fault f
  | Ok (v, _, tr) => Ok (v, tr)
  end.

(** [get_raw_data(i)]: the slot, or [None] for the null pointer. *)
Definition get_raw_data (t : SegmentTree) (i : nat) : option T :=
  if i <? m_ t + n_ t then data_ t !! i else None.

(** ** Vocabulary of the properties *)

(** The optimum of two values as the comment on [compare_] defines it: a
    result of 1 or more makes the second argument the optimum, a result of
    0 or less the first. *)
Definition best (cmp : comparator) (a b : T) : T :=
  if (0 <? cmp a b)%Z then b else a.

(** The oracle: one pass from left to right that keeps the optimum so far. *)
Definition scan (cmp : comparator) (l : list T) : option T :=
  match l with
  | [] => None
  | x :: xs => Some (fold_left (best cmp) xs x)
  end.

(** The [len] elements from position [a] on. *)
Definition seg (d : list T) (a len : nat) : list T :=
  take len (drop a d).

(** The elements at positions [from..to], both included. *)
Definition sublist (from to : nat) (l : list T) : list T :=
  seg l from (to + 1 - from).

(** A comparator orders the values: [cmp a b <= 0] reads "a is at least as
    good as b". *)
Definition total (cmp : comparator) : Prop :=
  forall a b, (cmp a b <= 0)%Z \/ (cmp b a <= 0)%Z.

Definition consistent (cmp : comparator) : Prop :=
  forall a b c, (cmp a b <= 0)%Z -> (cmp b c <= 0)%Z -> (cmp a c <= 0)%Z.

(** The slot [i] of [d], read as [TYPE()] outside the vector. *)
Definition val (d : list T) (i : nat) : T :=
  default dflt (d !! i).

(** The element sequence a tree stores: its [m_] leaves. *)
Definition elements (t : SegmentTree) : list T :=
  take (m_ t) (drop (n_ t) (data_ t)).

(** [Ready t l]: [t] was built by [prepare] and updated by [set_leaf] only,
    and [l] is the current element sequence. *)
Inductive Ready : SegmentTree -> list T -> Prop :=
| Ready_prepare t data cmp t' tr :
    prepare t (Some data) (Some cmp) = Ok (t', tr) ->
    Ready t' data
| Ready_set_leaf t l i v t' tr :
    Ready t l ->
    set_leaf t i v = Ok (t', tr) ->
    Ready t' (<[i:=v]> l).

(** ** Invariants *)

(** [d'] holds what [d] holds in every node that lies inside the query
    [from..to] (1-based). *)
Definition agrees (n from to : nat) (d d' : list T) : Prop :=
  length d' = length d /\
  forall q, inside n from to q -> d' !! q = d !! q.

(** What one round of the loop of [update] leaves in slot [p], where [e] is
    the last slot of the level of the children. *)
Definition node_eq (cmp : comparator) (e : nat) (d : list T) (p : nat) : Prop :=
  val d p = (if p * 2 + 1 <=? e
             then best cmp (val d (p * 2)) (val d (p * 2 + 1))
             else val d (p * 2)).

(** Node [j], of height [S s], holds the optimum of its children; the right
    child counts only when its leftmost leaf [(j * 2 + 1) * 2 ^ s] is a slot
    of the vector. *)
Definition wnode (cmp : comparator) (m n : nat) (d : list T) (j s : nat) : Prop :=
  val d j = (if (j * 2 + 1) * 2 ^ s <? m + n
             then best cmp (val d (j * 2)) (val d (j * 2 + 1))
             else val d (j * 2)).

Definition WInv (cmp : comparator) (m n : nat) (d : list T) : Prop :=
  forall s j, n <= j * 2 ^ S s -> j * 2 ^ S s < m + n -> wnode cmp m n d j s.

(** The state of a built tree whose element sequence is [l]. *)
Definition Inv (t : SegmentTree) (l : list T) : Prop :=
  exists cmp L,
    compare_ t = Some cmp /\ n_ t = 2 ^ L /\ 1 <= m_ t /\ m_ t <= n_ t /\
    (L = 0 \/ 2 ^ (L - 1) < m_ t) /\
    length (data_ t) = m_ t + n_ t /\ length l = m_ t /\
    (forall p, p < m_ t -> data_ t !! (n_ t + p) = l !! p) /\
    WInv cmp (m_ t) (n_ t) (data_ t).

End Tree.

Arguments SegmentTree T : clear implicits.
Arguments comparator T : clear implicits.
Arguments M T A : clear implicits.

(** The comparator of main.cpp.  Its data are the floats 7.0, 2.0, ... ; they
    are small integers, which [float] represents exactly, so [<] and [>]
    on them are those of [Z]. *)
Definition compare (left right : Z) : Z :=
  if (left <? right)%Z then (-1)%Z
  else if (left >? right)%Z then 1%Z
  else 0%Z.

Definition main_data : list Z := [7; 2; 4; 3; 9; 8; 0; 6; 5; 1]%Z.

Definition value_of {A B} (r : result (A * B)) : option A :=
  match r with
  | Ok (a, _) => Some a
  | Fault _ => None
  end.

Definition main_tree : result (SegmentTree Z * list access) :=
  prepare 0%Z new_tree (Some main_data) (Some compare).

(** A comparator with ties between different values: pairs ordered by their
    first component. *)
Definition compare_key (left right : Z * nat) : Z :=
  compare (fst left) (fst right).

Definition tie_data : list (Z * nat) :=
  [(3%Z, 0); (1%Z, 1); (1%Z, 2); (2%Z, 3)].

Definition tie_tree : result (SegmentTree (Z * nat) * list access) :=
  prepare (0%Z, 0) new_tree (Some tie_data) (Some compare_key).

(** The spec's names for the failures (its section 7).  The class signals
    every violated precondition by a failed [assert]: the spec calls the
    failed assertions of [prepare] and [get_value] InvalidArgument, the
    failed [assert(i < m_)] of [set_leaf] OutOfRange, and the failed
    [assert(i)] of [get_value] InternalInconsistency. *)
Inductive error_kind : Type :=
| InvalidArgument
| OutOfRange
| InternalInconsistency.

Definition spec_error (f : fault) : option error_kind :=
  match f with
  | AssertionFailed e =>
      if String.eqb e "i < m_" then Some OutOfRange
      else if String.eqb e "i" then Some InternalInconsistency
      else Some InvalidArgument
  | _ => None
  end.

Definition tree_of {T} (r : result (SegmentTree T * list access)) : SegmentTree T :=
  match r with
  | Ok (t, _) => t
  | Fault _ => new_tree
  end.

Definition trace_of {A} (r : result (A * list access)) : list access :=
  match r with
  | Ok (_, tr) => tr
  | Fault _ => []
  end.

Definition is_write (a : access) : bool :=
  match a with
  | Write _ => true
  | Read _ => false
  end.

(** The number of assignments to [data_] in a trace. *)
Definition writes (tr : list access) : nat :=
  length (List.filter is_write tr).

(** The tree of main.cpp after [set_leaf(9, -4)], and the tree built over
    the changed array at once. *)
Definition main_updated : result (SegmentTree Z * list access) :=
  set_leaf (tree_of main_tree) 9 (-4)%Z.

Definition main_rebuilt : result (SegmentTree Z * list access) :=
  prepare 0%Z new_tree (Some (<[9:=(-4)%Z]> main_data)) (Some compare).

(** * Proofs *)

Section Geometry.

Lemma pow2_pos t : 0 < 2 ^ t.
Proof. pose proof (Nat.pow_nonzero 2 t). lia. Qed.

Lemma div_pow2_bounds x t j :
  x / 2 ^ t = j <-> j * 2 ^ t <= x /\ x < (j + 1) * 2 ^ t.
Proof.
  pose proof (pow2_pos t) as Hp.
  split.
  - intros <-. split.
    + rewrite Nat.mul_comm. apply Nat.Div0.mul_div_le.
    + rewrite Nat.add_1_r, Nat.mul_comm. apply Nat.mul_succ_div_gt. lia.
  - intros [Hlo Hhi]. symmetry.
    apply (Nat.div_unique x (2 ^ t) j (x - j * 2 ^ t)); lia.
Qed.

Lemma halve_pow2 x t : x / 2 / 2 ^ t = x / 2 ^ S t.
Proof. rewrite Nat.Div0.div_div. reflexivity. Qed.

Lemma pow2_split a b : a <= b -> 2 ^ b = 2 ^ a * 2 ^ (b - a).
Proof. intros H. rewrite <- Nat.pow_add_r. f_equal. lia. Qed.

(** A node has one height: its leftmost leaf lies in [n, 2n) at one level only. *)
Lemma height_unique n j a b :
  n <= j * 2 ^ a -> j * 2 ^ a < 2 * n ->
  n <= j * 2 ^ b -> j * 2 ^ b < 2 * n -> a = b.
Proof.
  intros Ha1 Ha2 Hb1 Hb2.
  destruct (Nat.lt_trichotomy a b) as [Hlt | [-> | Hlt]]; [| reflexivity |].
  - exfalso. rewrite (pow2_split (S a) b) in Hb2 by lia.
    pose proof (pow2_pos (b - S a)). rewrite Nat.pow_succ_r' in Hb2. nia.
  - exfalso. rewrite (pow2_split (S b) a) in Ha2 by lia.
    pose proof (pow2_pos (a - S b)). rewrite Nat.pow_succ_r' in Ha2. nia.
Qed.

(** Halving a leaf slot [t <= L] times gives a node whose leftmost leaf is
    still a leaf slot. *)
Lemma anc_leftmost L x t :
  2 ^ L <= x -> t <= L -> 2 ^ L <= x / 2 ^ t * 2 ^ t.
Proof.
  intros Hx Ht. rewrite (pow2_split t L) by lia.
  rewrite (Nat.mul_comm (2 ^ t)).
  apply Nat.mul_le_mono_r.
  apply Nat.div_le_lower_bound; [pose proof (pow2_pos t); lia |].
  rewrite <- pow2_split by lia. exact Hx.
Qed.

Lemma anc_zero L x t : x < 2 * 2 ^ L -> L < t -> x / 2 ^ t = 0.
Proof.
  intros Hx Ht. apply Nat.div_small.
  rewrite (pow2_split (S L) t) by lia. rewrite Nat.pow_succ_r'.
  pose proof (pow2_pos (t - S L)). nia.
Qed.

(** Every node [1 <= j < 2n] has a height. *)
Lemma height_exists L j :
  1 <= j -> j < 2 * 2 ^ L -> exists s, 2 ^ L <= j * 2 ^ s /\ j * 2 ^ s < 2 * 2 ^ L.
Proof.
  induction L as [| L IH]; intros H1 H2.
  - exists 0. simpl in *. lia.
  - destruct (Nat.le_gt_cases (2 ^ S L) j) as [Hge | Hlt].
    + exists 0. rewrite Nat.pow_0_r. lia.
    + rewrite Nat.pow_succ_r' in Hlt. destruct (IH H1 Hlt) as (s & Hs1 & Hs2).
      exists (S s). rewrite !Nat.pow_succ_r'. lia.
Qed.

End Geometry.

Lemma on_path_lt x s : 1 <= x -> on_path x s -> s < x.
Proof.
  intros Hx (t & Ht & ->). apply Nat.div_lt; [lia |].
  destruct t as [| t]; [lia |]. rewrite Nat.pow_succ_r'. pose proof (pow2_pos t). lia.
Qed.

Lemma on_path_halve x s : on_path (x / 2) s -> on_path x s.
Proof. intros (t & Ht & ->). exists (S t). split; [lia |]. apply halve_pow2. Qed.

Lemma on_path_first x : on_path x (x / 2).
Proof. exists 1. split; [lia |]. rewrite Nat.pow_1_r. reflexivity. Qed.

Lemma overlaps_iff L m j s :
  m <= 2 ^ L -> 2 ^ L <= j * 2 ^ s -> j * 2 ^ s < 2 * 2 ^ L ->
  overlaps m (2 ^ L) j <-> j * 2 ^ s < m + 2 ^ L.
Proof.
  intros Hm Hlo Hhi. pose proof (pow2_pos L) as HL. split.
  - intros (p & Hp & t & Ht).
    apply div_pow2_bounds in Ht as Hb. destruct Hb as [Hb1 Hb2].
    destruct (Nat.le_gt_cases t L) as [HtL | HtL].
    + pose proof (anc_leftmost L (2 ^ L + p) t ltac:(lia) HtL) as Hl.
      rewrite Ht in Hl.
      assert (t = s) as -> by (apply (height_unique (2 ^ L) j); lia).
      lia.
    + rewrite (anc_zero L) in Ht by lia. subst j. lia.
  - intros Hv. exists (j * 2 ^ s - 2 ^ L). split; [lia |]. exists s.
    replace (2 ^ L + (j * 2 ^ s - 2 ^ L)) with (j * 2 ^ s) by lia.
    apply Nat.div_mul. pose proof (pow2_pos s). lia.
Qed.

Section Runs.

Context {T : Type}.
Variable dflt : T.

Abbreviation cell := (val dflt).

Lemma val_lookup (d : list T) i x : d !! i = Some x -> cell d i = x.
Proof. unfold val. intros ->. reflexivity. Qed.

Lemma lookup_val (d : list T) i : i < length d -> d !! i = Some (cell d i).
Proof.
  intros H. destruct (lookup_lt_is_Some_2 d i H) as [x Hx].
  rewrite (val_lookup _ _ _ Hx). exact Hx.
Qed.

Lemma val_agree (d d' : list T) i : d' !! i = d !! i -> cell d' i = cell d i.
Proof. unfold val. intros ->. reflexivity. Qed.

Lemma val_insert_eq (d : list T) i v : i < length d -> cell (<[i:=v]> d) i = v.
Proof. intros H. apply val_lookup. apply list_lookup_insert_eq. exact H. Qed.

Lemma val_insert_ne (d : list T) i j v : i <> j -> cell (<[i:=v]> d) j = cell d j.
Proof. intros H. apply val_agree. apply list_lookup_insert_ne. exact H. Qed.

Lemma read_ok (d : list T) i : i < length d -> read i d = Ok (cell d i, d, [Read i]).
Proof. intros H. unfold read. rewrite (lookup_val d i H). reflexivity. Qed.

Lemma write_ok (d : list T) i v :
  i < length d -> write i v d = Ok (tt, <[i:=v]> d, [Write i]).
Proof. intros H. unfold write. destruct (decide (i < length d)); [reflexivity | lia]. Qed.

Lemma bind_ok {A B} (c : M T A) (k : A -> M T B) d a d1 tr1 :
  c d = Ok (a, d1, tr1) ->
  bind c k d = match k a d1 with
               | Fault f => Fault f
               | Ok (b, d2, tr2) => Ok (b, d2, tr1 ++ tr2)
               end.
Proof. intros H. unfold bind. rewrite H. reflexivity. Qed.

Lemma bind_fault {A B} (c : M T A) (k : A -> M T B) d f :
  c d = Fault f -> bind c k d = Fault f.
Proof. intros H. unfold bind. rewrite H. reflexivity. Qed.

Lemma assert_true b e (d : list T) : b = true -> assert b e d = Ok (tt, d, []).
Proof. intros ->. reflexivity. Qed.

Lemma assert_false b e (d : list T) :
  b = false -> assert b e d = Fault (AssertionFailed e).
Proof. intros ->. reflexivity. Qed.

Variable cmp : comparator T.

Abbreviation opt := (best cmp).

Lemma choose_child_spec h e (d : list T) :
  h <= e -> e < length d ->
  exists h' tr,
    choose_child (Some cmp) h (h + 1) e d = Ok (h', d, tr) /\
    (h' = h \/ h' = h + 1) /\ h' <= e /\
    cell d h' = (if h + 1 <=? e then opt (cell d h) (cell d (h + 1)) else cell d h) /\
    Forall (fun a => exists i, a = Read i /\ i <= e) tr /\
    (h + 1 <= e -> tr = [Read h; Read (h + 1)]).
Proof.
  intros Hh He. unfold choose_child.
  destruct (Nat.leb_spec (h + 1) e) as [Hk | Hk].
  - rewrite (bind_ok _ _ _ _ _ _ (read_ok d h ltac:(lia))).
    rewrite (bind_ok _ _ _ _ _ _ (read_ok d (h + 1) ltac:(lia))).
    unfold call_compare, bind, ret, best. simpl.
    destruct (0 <? cmp (cell d h) (cell d (h + 1)))%Z.
    + exists (h + 1), [Read h; Read (h + 1)].
      repeat split; auto; try lia.
      repeat constructor; eexists; split; eauto; lia.
    + exists h, [Read h; Read (h + 1)].
      repeat split; auto; try lia.
      repeat constructor; eexists; split; eauto; lia.
  - exists h, []. unfold ret. repeat split; auto; try lia.
Qed.

Lemma update_loop_spec fuel : forall i e (d : list T),
  i < fuel -> i <= e -> e < length d ->
  exists d' tr,
    update_loop (Some cmp) fuel i e d = Ok (tt, d', tr) /\
    length d' = length d /\
    (forall s, ~ on_path i s -> d' !! s = d !! s) /\
    Forall (fun a => slot a <= e /\ forall s, a = Write s -> on_path i s) tr /\
    (forall t, 1 <= t -> 1 <= i / 2 ^ t ->
       node_eq dflt cmp (e / 2 ^ (t - 1)) d' (i / 2 ^ t)) /\
    (1 <= i -> exists tr', tr = tr' ++ [Write 0]).
Proof.
  induction fuel as [| fuel IH]; intros i e d Hf Hie He; [lia |].
  cbn [update_loop]. destruct (Nat.ltb_spec 0 i) as [Hi | Hi].
  2:{ exists d, []. unfold ret. repeat split; auto; try lia.
      intros t Ht Hq. replace i with 0 in Hq by lia.
      rewrite Nat.Div0.div_0_l in Hq. lia. }
  set (p := i / 2).
  assert (Hp : p * 2 <= i).
  { unfold p. rewrite Nat.mul_comm. apply Nat.Div0.mul_div_le. }
  assert (Hpi : p < i) by (unfold p; apply Nat.div_lt; lia).
  destruct (choose_child_spec (p * 2) e d ltac:(lia) He)
    as (h' & trc & Hc & Hh' & Hh'e & Hv & Htrc & _).
  rewrite (bind_ok _ _ _ _ _ _ Hc).
  rewrite (bind_ok _ _ _ _ _ _ (read_ok d h' ltac:(lia))).
  rewrite (bind_ok _ _ _ _ _ _ (write_ok d p (cell d h') ltac:(lia))).
  set (d1 := <[p:=cell d h']> d).
  assert (Hl1 : length d1 = length d) by apply length_insert.
  assert (Hpe : p <= e / 2) by (unfold p; apply Nat.Div0.div_le_mono; lia).
  assert (He2 : e / 2 <= e) by (apply Nat.Div0.div_le_upper_bound; lia).
  destruct (IH p (e / 2) d1 ltac:(lia) Hpe ltac:(lia))
    as (d' & tr' & Hrun & Hlen & Hframe & Htr & Hnode & Hlast).
  rewrite Hrun. exists d', (trc ++ [Read h'] ++ [Write p] ++ tr').
  split; [reflexivity |]. split; [lia |]. split; [| split; [| split]].
  - intros s Hs. rewrite Hframe.
    + apply list_lookup_insert_ne. intros <-. apply Hs. apply on_path_first.
    + intros Hps. apply Hs. apply on_path_halve. exact Hps.
  - apply Forall_app. split.
    { eapply Forall_impl; [exact Htrc |]. intros a (j & -> & Hj). simpl.
      split; [lia | discriminate]. }
    constructor; [simpl; split; [lia | discriminate] |].
    constructor.
    { simpl. split; [lia |]. intros s [= <-]. apply on_path_first. }
    eapply Forall_impl; [exact Htr |]. intros a [Ha1 Ha2]. split; [lia |].
    intros s Hs. apply on_path_halve. apply Ha2. exact Hs.
  - intros t Ht Hq. destruct t as [| [| t]]; [lia | |].
    + rewrite Nat.pow_1_r in *. fold p in Hq |- *. simpl (1 - 1).
      rewrite Nat.pow_0_r, Nat.div_1_r. unfold node_eq.
      assert (Hnp : forall s, p <= s -> ~ on_path p s).
      { intros s Hs Hon. apply on_path_lt in Hon; lia. }
      rewrite (val_agree d1 d' p) by (apply Hframe, Hnp; lia).
      rewrite (val_agree d1 d' (p * 2)) by (apply Hframe, Hnp; lia).
      rewrite (val_agree d1 d' (p * 2 + 1)) by (apply Hframe, Hnp; lia).
      unfold d1. rewrite val_insert_eq by lia.
      rewrite !val_insert_ne by lia. exact Hv.
    + rewrite <- halve_pow2 in Hq |- *. fold p in Hq |- *.
      replace (S (S t) - 1) with (S t) by lia.
      rewrite <- halve_pow2.
      specialize (Hnode (S t) ltac:(lia) Hq).
      replace (S t - 1) with t in Hnode by lia. exact Hnode.
  - intros _. destruct (Nat.eq_dec p 0) as [Hp0 | Hp0].
    + exists (trc ++ [Read h']). rewrite Hp0 in *.
      destruct fuel as [| fuel']; [lia |]. cbn in Hrun.
      injection Hrun as <- <-. rewrite <- !app_assoc. reflexivity.
    + destruct (Hlast ltac:(lia)) as (tr0 & ->).
      exists (trc ++ [Read h'] ++ [Write p] ++ tr0). rewrite <- !app_assoc. reflexivity.
Qed.

End Runs.

Lemma on_path_le_half x s : on_path x s -> s <= x / 2.
Proof.
  intros (t & Ht & ->). destruct t as [| t]; [lia |].
  rewrite <- halve_pow2. apply Nat.Div0.div_le_upper_bound.
  pose proof (pow2_pos t). nia.
Qed.

Lemma le_div_pow2 a b s : a <= b / 2 ^ s <-> a * 2 ^ s <= b.
Proof.
  pose proof (pow2_pos s) as Hp. split; intros H.
  - pose proof (Nat.Div0.mul_div_le b (2 ^ s)). nia.
  - apply Nat.div_le_lower_bound; lia.
Qed.

(** A slot on the halving path of the leaf slot [x] that is a node [j] of
    height [S s], or one of its children, makes [j] an ancestor of [x]. *)
Lemma on_path_ancestor L x j s q :
  2 ^ L <= x -> x < 2 * 2 ^ L ->
  2 ^ L <= j * 2 ^ S s -> j * 2 ^ S s < 2 * 2 ^ L ->
  q = j \/ q = j * 2 \/ q = j * 2 + 1 ->
  on_path x q -> x / 2 ^ S s = j.
Proof.
  intros Hx1 Hx2 Hj1 Hj2 Hq (t & Ht & Hqt).
  assert (Hanc : exists t', 1 <= t' /\ x / 2 ^ t' = j).
  { destruct Hq as [-> | Hq]; [exists t; auto |].
    exists (S t). split; [lia |].
    rewrite Nat.pow_succ_r', (Nat.mul_comm 2), <- Nat.Div0.div_div, <- Hqt.
    destruct Hq as [-> | ->].
    - apply Nat.div_mul. lia.
    - rewrite Nat.add_comm, Nat.div_add by lia. reflexivity. }
  destruct Hanc as (t' & Ht' & Hj).
  assert (1 <= j) by (pose proof (pow2_pos (S s)); nia).
  destruct (Nat.le_gt_cases t' L) as [HtL | HtL].
  - pose proof (anc_leftmost L x t' Hx1 HtL) as Hl. rewrite Hj in Hl.
    apply div_pow2_bounds in Hj as Hb.
    assert (t' = S s) as <- by (apply (height_unique (2 ^ L) j); lia).
    exact Hj.
  - rewrite (anc_zero L) in Hj by lia. lia.
Qed.

Section Specs.

Context {T : Type}.
Variable dflt : T.
Variable cmp : comparator T.

Abbreviation cell := (val dflt).
Abbreviation opt := (best cmp).

Lemma set_leaf_simply_spec m n i v (d : list T) :
  i < m -> length d = m + n ->
  set_leaf_simply m n i v d = Ok (tt, <[n + i:=v]> d, [Write (n + i)]).
Proof.
  intros Hi Hl. unfold set_leaf_simply.
  rewrite (bind_ok _ _ _ _ _ _ (assert_true _ _ d (proj2 (Nat.ltb_lt i m) Hi))).
  rewrite (Nat.add_comm i n), (write_ok d (n + i) v) by lia. reflexivity.
Qed.

Lemma node_eq_wnode m n e d p t :
  1 <= m + n -> 1 <= t -> e = (m + n - 1) / 2 ^ (t - 1) ->
  node_eq dflt cmp e d p -> wnode dflt cmp m n d p (t - 1).
Proof.
  intros Hmn Ht -> H. unfold node_eq in H. unfold wnode. rewrite H.
  destruct (Nat.leb_spec (p * 2 + 1) ((m + n - 1) / 2 ^ (t - 1))) as [Hle | Hgt];
    destruct (Nat.ltb_spec ((p * 2 + 1) * 2 ^ (t - 1)) (m + n)) as [Hlt | Hge];
    try reflexivity; exfalso.
  - apply le_div_pow2 in Hle. lia.
  - assert (p * 2 + 1 <= (m + n - 1) / 2 ^ (t - 1)) by (apply le_div_pow2; lia). lia.
Qed.

Lemma update_spec L m i (d : list T) :
  i < m -> m <= 2 ^ L -> length d = m + 2 ^ L ->
  exists d' tr,
    update m (2 ^ L) (Some cmp) i d = Ok (tt, d', tr) /\
    length d' = length d /\
    (forall s, ~ on_path (2 ^ L + i) s -> d' !! s = d !! s) /\
    Forall (fun a => slot a < m + 2 ^ L /\
                     forall s, a = Write s -> on_path (2 ^ L + i) s) tr /\
    (forall s j, 2 ^ L <= j * 2 ^ S s -> j * 2 ^ S s < m + 2 ^ L ->
       (2 ^ L + i) / 2 ^ S s = j -> wnode dflt cmp m (2 ^ L) d' j s) /\
    (forall s j, 2 ^ L <= j * 2 ^ S s -> j * 2 ^ S s < m + 2 ^ L ->
       (2 ^ L + i) / 2 ^ S s <> j -> wnode dflt cmp m (2 ^ L) d j s -> wnode dflt cmp m (2 ^ L) d' j s) /\
    (exists tr', tr = tr' ++ [Write 0]).
Proof.
  intros Hi Hm Hl. pose proof (pow2_pos L) as HL. unfold update.
  rewrite (bind_ok _ _ _ _ _ _ (assert_true _ _ d (proj2 (Nat.ltb_lt i m) Hi))).
  rewrite (Nat.add_comm i).
  destruct (update_loop_spec dflt cmp (S (2 ^ L + i)) (2 ^ L + i) (m + 2 ^ L - 1) d
              ltac:(lia) ltac:(lia) ltac:(lia))
    as (d' & tr & Hrun & Hlen & Hframe & Htr & Hnode & Hlast).
  rewrite Hrun. exists d', tr. cbn [app].
  split; [reflexivity |]. split; [exact Hlen |]. split; [exact Hframe |].
  split; [| split; [| split]].
  - eapply Forall_impl; [exact Htr |]. intros a [Ha1 Ha2]. split; [lia | exact Ha2].
  - intros s j Hj1 Hj2 Hanc.
    assert (1 <= j) by (pose proof (pow2_pos (S s)); nia).
    specialize (Hnode (S s) ltac:(lia)). rewrite Hanc in Hnode.
    specialize (Hnode ltac:(lia)).
    apply (node_eq_wnode m (2 ^ L) _ d' j (S s)) in Hnode; [| lia | lia | reflexivity].
    replace (S s - 1) with s in Hnode by lia. exact Hnode.
  - intros s j Hj1 Hj2 Hanc Hw. unfold wnode in *.
    assert (Hoff : forall q, q = j \/ q = j * 2 \/ q = j * 2 + 1 ->
                             ~ on_path (2 ^ L + i) q).
    { intros q Hq Hon. apply Hanc.
      apply (on_path_ancestor L (2 ^ L + i) j s q); auto; lia. }
    rewrite (val_agree dflt d d' j) by (apply Hframe, Hoff; auto).
    rewrite (val_agree dflt d d' (j * 2)) by (apply Hframe, Hoff; auto).
    rewrite (val_agree dflt d d' (j * 2 + 1)) by (apply Hframe, Hoff; auto).
    exact Hw.
  - apply Hlast. lia.
Qed.

End Specs.

Lemma grow_spec fuel : forall k n,
  n - 2 ^ k < fuel -> (k = 0 \/ 2 ^ (k - 1) < n) ->
  exists L, grow fuel (2 ^ k) n = Ok (2 ^ L) /\ n <= 2 ^ L /\ (L = 0 \/ 2 ^ (L - 1) < n).
Proof.
  induction fuel as [| fuel IH]; intros k n Hf Hk; [lia |].
  cbn [grow]. destruct (Nat.ltb_spec (2 ^ k) n) as [Hlt | Hge].
  - rewrite (Nat.mul_comm _ 2), <- Nat.pow_succ_r'. apply IH.
    + rewrite Nat.pow_succ_r'. pose proof (pow2_pos k). lia.
    + right. replace (S k - 1) with k by lia. exact Hlt.
  - exists k. auto.
Qed.

Lemma pow2_smallest L m j : (L = 0 \/ 2 ^ (L - 1) < m) -> m <= 2 ^ j -> 2 ^ L <= 2 ^ j.
Proof.
  intros [-> | HL] Hj.
  - pose proof (pow2_pos j). simpl. lia.
  - apply Nat.pow_le_mono_r; [lia |].
    assert (L - 1 < j); [| lia].
    apply (Nat.pow_lt_mono_r_iff 2); lia.
Qed.

Section Build.

Context {T : Type}.
Variable dflt : T.

Abbreviation cell := (val dflt).

Lemma for_loop_spec (I : nat -> list T -> Prop) (P : access -> Prop)
    (body : nat -> M T unit) n step :
  1 <= step ->
  (forall i d, i < n -> I i d ->
     exists d' tr, body i d = Ok (tt, d', tr) /\ I (i + step) d' /\ Forall P tr) ->
  forall fuel i d, n - i < fuel -> I i d ->
    exists d' tr i', for_loop fuel i n step body d = Ok (tt, d', tr) /\
                     n <= i' /\ I i' d' /\ Forall P tr.
Proof.
  intros Hstep Hbody. induction fuel as [| fuel IH]; intros i d Hf HI; [lia |].
  cbn [for_loop]. destruct (Nat.ltb_spec i n) as [Hlt | Hge].
  - destruct (Hbody i d Hlt HI) as (d1 & tr1 & Hrun1 & HI1 & Htr1).
    rewrite (bind_ok _ _ _ _ _ _ Hrun1).
    destruct (IH (i + step) d1 ltac:(lia) HI1) as (d' & tr' & i' & Hrun & Hi' & HI' & Htr').
    rewrite Hrun. exists d', (tr1 ++ tr'), i'.
    split; [reflexivity |]. split; [exact Hi' |]. split; [exact HI' |].
    apply Forall_app. auto.
  - exists d, [], i. unfold ret. auto.
Qed.

Lemma leaf_off_path L i p : i < 2 ^ L -> ~ on_path (2 ^ L + i) (2 ^ L + p).
Proof.
  intros Hi Hon. apply on_path_le_half in Hon.
  assert ((2 ^ L + i) / 2 < 2 ^ L) by (apply Nat.Div0.div_lt_upper_bound; lia).
  lia.
Qed.

Lemma prepare_body_spec cmp L (data d : list T) :
  let m := length data in
  1 <= m -> m <= 2 ^ L -> length d = m + 2 ^ L ->
  exists d' tr,
    prepare_body m (2 ^ L) (Some cmp) data m d = Ok (tt, d', tr) /\
    length d' = m + 2 ^ L /\
    (forall p, p < m -> d' !! (2 ^ L + p) = data !! p) /\
    WInv dflt cmp m (2 ^ L) d' /\
    Forall (fun a => slot a < m + 2 ^ L) tr.
Proof.
  intros m Hm1 Hm Hl. pose proof (pow2_pos L) as HL. unfold prepare_body.
  (* the leaves *)
  destruct (for_loop_spec
              (fun i d => length d = m + 2 ^ L /\
                          forall p, p < i -> d !! (2 ^ L + p) = data !! p)
              (fun a => slot a < m + 2 ^ L)
              (fun i => match data !! i with
                        | Some x => set_leaf_simply m (2 ^ L) i x
                        | None => fail (OutOfBounds i)
                        end)
              m 1 ltac:(lia)) with (fuel := S m) (i := 0) (d := d)
    as (d1 & tr1 & i1 & Hrun1 & Hi1 & [Hl1 Hleaf1] & Htr1).
  { intros i d0 Hi [Hl0 Hleaf0].
    destruct (lookup_lt_is_Some_2 data i Hi) as [x Hx]. rewrite Hx.
    rewrite (set_leaf_simply_spec m (2 ^ L) i x d0 Hi Hl0).
    eexists _, _. split; [reflexivity |]. split; [split |].
    - rewrite length_insert. exact Hl0.
    - intros p Hp. destruct (Nat.eq_dec p i) as [-> | Hne].
      + rewrite list_lookup_insert_eq by lia. auto.
      + rewrite list_lookup_insert_ne by lia. apply Hleaf0. lia.
    - repeat constructor. simpl. lia. }
  { lia. }
  { split; [exact Hl |]. intros p Hp. lia. }
  rewrite (bind_ok _ _ _ _ _ _ Hrun1).
  (* the internal nodes *)
  destruct (for_loop_spec
              (fun i d => length d = m + 2 ^ L /\ (exists c, i = 2 * c) /\
                          (forall p, p < m -> d !! (2 ^ L + p) = data !! p) /\
                          forall s j, 2 ^ L <= j * 2 ^ S s -> j * 2 ^ S s < 2 ^ L + i ->
                                      j * 2 ^ S s < m + 2 ^ L ->
                                      wnode dflt cmp m (2 ^ L) d j s)
              (fun a => slot a < m + 2 ^ L)
              (update m (2 ^ L) (Some cmp))
              m 2 ltac:(lia)) with (fuel := S m) (i := 0) (d := d1)
    as (d2 & tr2 & i2 & Hrun2 & Hi2 & (Hl2 & _ & Hleaf2 & Hw2) & Htr2).
  { intros i d0 Hi (Hl0 & [c Hc] & Hleaf0 & Hw0).
    destruct (update_spec dflt cmp L m i d0 Hi Hm Hl0)
      as (d' & tr & Hrun & Hlen & Hframe & Htr & Hanc & Hoth & _).
    exists d', tr. split; [exact Hrun |]. split; [| eapply Forall_impl; [exact Htr |]; intros a [Ha _]; exact Ha].
    split; [lia |]. split; [exists (c + 1); lia |]. split.
    - intros p Hp. rewrite Hframe; [auto |]. apply leaf_off_path. lia.
    - intros s j Hj1 Hj2 Hj3.
      destruct (Nat.eq_dec ((2 ^ L + i) / 2 ^ S s) j) as [Heq | Hne].
      + apply Hanc; auto.
      + apply Hoth; auto. apply Hw0; auto.
        destruct (Nat.lt_ge_cases (j * 2 ^ S s) (2 ^ L + i)) as [| Hge]; [assumption |].
        exfalso. apply Hne. apply div_pow2_bounds.
        pose proof (pow2_pos s) as Hs.
        rewrite (Nat.pow_succ_r' 2 s) in *.
        destruct L as [| L']; [cbn in Hj1, Hj3, Hm; lia |].
        rewrite (Nat.pow_succ_r' 2 L') in *. lia. }
  { lia. }
  { split; [exact Hl1 |]. split; [exists 0; lia |]. split.
    - intros p Hp. apply Hleaf1. lia.
    - intros s j Hj1 Hj2. lia. }
  rewrite Hrun2. exists d2, (tr1 ++ tr2).
  split; [reflexivity |]. split; [exact Hl2 |]. split; [exact Hleaf2 |].
  split; [| apply Forall_app; auto].
  intros s j Hj1 Hj2. apply Hw2; auto. lia.
Qed.

Lemma prepare_spec t (data : list T) cmp :
  1 <= length data ->
  exists t' tr,
    prepare dflt t (Some data) (Some cmp) = Ok (t', tr) /\
    m_ t' = length data /\ compare_ t' = Some cmp /\ Inv dflt t' data /\
    Forall (fun a => slot a < m_ t' + n_ t') tr.
Proof.
  intros Hm. unfold prepare.
  destruct (Nat.eqb_spec (length data) 0) as [| _]; [lia |].
  destruct (grow_spec (S (length data)) 0 (length data) ltac:(simpl; lia) ltac:(auto))
    as (L & Hg & HL1 & HL2).
  change (2 ^ 0) with 1 in Hg. rewrite Hg.
  destruct (prepare_body_spec cmp L data
              (resize (length data + 2 ^ L) dflt (data_ t)) Hm HL1
              ltac:(apply length_resize))
    as (d' & tr & Hrun & Hlen & Hleaf & Hw & Htr).
  rewrite Hrun. eexists _, _. split; [reflexivity |]. cbn.
  split; [reflexivity |]. split; [reflexivity |]. split; [| exact Htr].
  exists cmp, L. cbn. repeat split; auto.
Qed.

Lemma set_leaf_spec t l i v :
  Inv dflt t l -> i < m_ t ->
  exists t' tr,
    set_leaf t i v = Ok (t', tr) /\
    m_ t' = m_ t /\ n_ t' = n_ t /\ compare_ t' = compare_ t /\
    length (data_ t') = length (data_ t) /\
    Inv dflt t' (<[i:=v]> l) /\
    data_ t' !! (n_ t + i) = Some v /\
    (forall s, s <> n_ t + i -> ~ on_path (n_ t + i) s ->
               data_ t' !! s = data_ t !! s) /\
    Forall (fun a => slot a < m_ t + n_ t /\
                     forall s, a = Write s -> s = n_ t + i \/ on_path (n_ t + i) s) tr /\
    (exists tr', tr = tr' ++ [Write 0]).
Proof.
  intros (cmp & L & Hc & Hn & Hm1 & Hmn & HL & Hlen & Hll & Hleaf & Hw) Hi.
  unfold set_leaf, set_leaf_body. rewrite Hc, Hn in *.
  pose proof (pow2_pos L) as HpL.
  rewrite (bind_ok _ _ _ _ _ _ (assert_true _ _ _ (proj2 (Nat.ltb_lt i _) Hi))).
  rewrite (bind_ok _ _ _ _ _ _ (set_leaf_simply_spec _ _ i v _ Hi Hlen)).
  set (d1 := <[2 ^ L + i:=v]> (data_ t)).
  assert (Hl1 : length d1 = m_ t + 2 ^ L) by (unfold d1; rewrite length_insert; exact Hlen).
  destruct (update_spec dflt cmp L (m_ t) i d1 Hi Hmn Hl1)
    as (d' & tr & Hrun & Hlen' & Hframe & Htr & Hanc & Hoth & Hlast).
  rewrite Hrun. eexists _, _. split; [reflexivity |]. cbn.
  repeat (split; [reflexivity || lia |]).
  assert (Hnew : d' !! (2 ^ L + i) = Some v).
  { rewrite Hframe by (apply leaf_off_path; lia).
    unfold d1. apply list_lookup_insert_eq. lia. }
  split; [| split; [exact Hnew |]; split; [| split]].
  - exists cmp, L. cbn.
    split; [reflexivity |]. split; [reflexivity |]. split; [exact Hm1 |].
    split; [exact Hmn |]. split; [exact HL |]. split; [lia |].
    split; [rewrite length_insert; exact Hll |]. split.
    + intros p Hp. destruct (Nat.eq_dec p i) as [-> | Hne].
      * rewrite Hnew. symmetry. apply list_lookup_insert_eq. lia.
      * rewrite Hframe by (apply leaf_off_path; lia).
        unfold d1. rewrite !list_lookup_insert_ne by lia. auto.
    + intros s j Hj1 Hj2.
      destruct (Nat.eq_dec ((2 ^ L + i) / 2 ^ S s) j) as [Heq | Hne].
      * apply Hanc; auto.
      * apply Hoth; auto. specialize (Hw s j Hj1 Hj2). unfold wnode in *.
        assert (Hoff : forall q, q = j \/ q = j * 2 \/ q = j * 2 + 1 -> 2 ^ L + i <> q).
        { intros q Hq <-. apply Hne.
          assert (1 <= j) by (pose proof (pow2_pos (S s)); nia).
          assert (j < 2 ^ L).
          { rewrite Nat.pow_succ_r' in Hj2. pose proof (pow2_pos s). nia. }
          destruct Hq as [Hq | Hq]; [lia |].
          assert (Hh : (2 ^ L + i) / 2 ^ 1 = j).
          { apply div_pow2_bounds. rewrite Nat.pow_1_r. lia. }
          apply div_pow2_bounds in Hh as Hb. rewrite Nat.pow_1_r in Hb.
          assert (1 = S s) as <-; [| exact Hh].
          apply (height_unique (2 ^ L) j); rewrite ?Nat.pow_1_r; try lia.
          destruct L as [| L']; [cbn in *; lia |].
          rewrite (Nat.pow_succ_r' 2 L') in *. lia. }
        unfold d1. rewrite !val_insert_ne by (apply Hoff; auto). exact Hw.
  - intros s Hs Hon. rewrite Hframe by exact Hon.
    unfold d1. apply list_lookup_insert_ne. lia.
  - constructor.
    { simpl. split; [lia |]. intros s [= <-]. auto. }
    eapply Forall_impl; [exact Htr |]. intros a [Ha1 Ha2]. split; [lia | auto].
  - destruct Hlast as [tr' ->]. exists (Write (2 ^ L + i) :: tr'). reflexivity.
Qed.

End Build.

Lemma half_odd a : (2 * a + 1) / 2 = a.
Proof. symmetry. apply (Nat.div_unique _ 2 a 1); lia. Qed.

Lemma inside_pos n from to r : 1 <= n -> 1 <= from -> inside n from to r -> 1 <= r.
Proof. intros Hn Hf (s & H1 & H2). destruct r; [simpl in H1; lia | lia]. Qed.

Lemma inside_lt n from to r : inside n from to r -> r < n + to.
Proof. intros (s & H1 & H2). pose proof (pow2_pos s). nia. Qed.

Section Oracle.

Context {T : Type}.
Variable dflt : T.
Variable cmp : comparator T.

Abbreviation cell := (val dflt).
Abbreviation opt := (best cmp).

Lemma seg_app (d : list T) a x y : seg d a (x + y) = seg d a x ++ seg d (a + x) y.
Proof. unfold seg. rewrite <- (drop_drop d x a). symmetry. apply take_take_drop. Qed.

Lemma seg_one (d : list T) a : a < length d -> seg d a 1 = [cell d a].
Proof.
  intros H. unfold seg. apply list_eq. intros [| i].
  - rewrite lookup_take_lt by lia. rewrite lookup_drop, Nat.add_0_r.
    rewrite (lookup_val dflt d a H). reflexivity.
  - rewrite lookup_take_ge by lia. reflexivity.
Qed.

Hypothesis cmp_total : total cmp.
Hypothesis cmp_consistent : consistent cmp.

Lemma best_assoc a b c : opt (opt a b) c = opt a (opt b c).
Proof.
  unfold best.
  pose proof (cmp_total a b). pose proof (cmp_total b c). pose proof (cmp_total a c).
  pose proof (cmp_consistent a b c). pose proof (cmp_consistent a c b).
  pose proof (cmp_consistent c b a). pose proof (cmp_consistent b a c).
  destruct (Z.ltb_spec 0 (cmp a b)); destruct (Z.ltb_spec 0 (cmp b c));
  repeat match goal with
         | |- context [(0 <? ?x)%Z] => destruct (Z.ltb_spec 0 x)
         end; try reflexivity; exfalso; lia.
Qed.

Lemma fold_best_assoc (l : list T) : forall a b,
  fold_left opt l (opt a b) = opt a (fold_left opt l b).
Proof.
  induction l as [| c l IH]; intros a b; [reflexivity |].
  simpl. rewrite best_assoc. apply IH.
Qed.

Lemma scan_app (l1 l2 : list T) a b :
  scan cmp l1 = Some a -> scan cmp l2 = Some b -> scan cmp (l1 ++ l2) = Some (opt a b).
Proof.
  destruct l1 as [| x l1]; [discriminate |].
  destruct l2 as [| y l2]; [discriminate |].
  simpl. intros [= <-] [= <-]. f_equal.
  rewrite fold_left_app. simpl. apply fold_best_assoc.
Qed.

(** A node all of whose leaves are slots of the vector holds the result of
    the scan over its leaves. *)
Lemma node_scan m n (d : list T) :
  length d = m + n -> WInv dflt cmp m n d ->
  forall s j, n <= j * 2 ^ s -> (j + 1) * 2 ^ s <= m + n ->
    scan cmp (seg d (j * 2 ^ s) (2 ^ s)) = Some (cell d j).
Proof.
  intros Hl Hw. induction s as [| s IH]; intros j Hj1 Hj2.
  - rewrite Nat.pow_0_r, Nat.mul_1_r in *. rewrite seg_one by lia. reflexivity.
  - pose proof (pow2_pos s) as Hs. rewrite Nat.pow_succ_r' in Hj1, Hj2.
    assert (Hwn : wnode dflt cmp m n d j s).
    { apply Hw; rewrite Nat.pow_succ_r'; nia. }
    unfold wnode in Hwn.
    destruct (Nat.ltb_spec ((j * 2 + 1) * 2 ^ s) (m + n)) as [_ | Hge]; [| nia].
    rewrite Hwn, Nat.pow_succ_r'.
    replace (2 * 2 ^ s) with (2 ^ s + 2 ^ s) by lia. rewrite seg_app.
    apply scan_app.
    + replace (j * (2 ^ s + 2 ^ s)) with (j * 2 * 2 ^ s) by lia. apply IH; nia.
    + replace (j * (2 ^ s + 2 ^ s) + 2 ^ s) with ((j * 2 + 1) * 2 ^ s) by lia.
      apply IH; nia.
Qed.

End Oracle.

Section Query.

Context {T : Type}.
Variable dflt : T.
Variable cmp : comparator T.
Variables (L m from to : nat) (d : list T).

Hypothesis Hm : m <= 2 ^ L.
Hypothesis Hfrom : 1 <= from.
Hypothesis Hft : from <= to.
Hypothesis Hto : to <= m.
Hypothesis Hlen : length d = m + 2 ^ L.

Abbreviation cell := (val dflt).
Abbreviation opt := (best cmp).

Lemma agrees_read d' q :
  agrees (2 ^ L) from to d d' -> inside (2 ^ L) from to q -> read q d' = Ok (cell d q, d', [Read q]).
Proof.
  intros [Hl Hag] Hq. pose proof (inside_lt _ _ _ _ Hq).
  rewrite (read_ok dflt) by lia. rewrite (val_agree dflt d d' q) by auto. reflexivity.
Qed.

Lemma get_value_sub_spec fuel : forall s index left right,
  s < fuel ->
  2 ^ L + left = index * 2 ^ s + 1 ->
  2 ^ L + right = (index + 1) * 2 ^ s ->
  exists r tr,
    (forall d', agrees (2 ^ L) from to d d' ->
       get_value_sub (Some cmp) fuel from to index left right d' = Ok (r, d', tr)) /\
    (right < from \/ to < left -> r = 0) /\
    (from <= right -> left <= to ->
       inside (2 ^ L) from to r /\
       (total cmp -> consistent cmp -> WInv dflt cmp m (2 ^ L) d ->
        scan cmp (seg d (2 ^ L + max left from - 1) (min right to + 1 - max left from))
        = Some (cell d r))) /\
    Forall (fun a => exists q, a = Read q /\ inside (2 ^ L) from to q) tr.
Proof.
  pose proof (pow2_pos L) as HL.
  induction fuel as [| fuel IH]; intros s index left right Hs Hl Hr; [lia |].
  pose proof (pow2_pos s) as Hps.
  cbn [get_value_sub].
  destruct (Nat.ltb_spec right from) as [Hrf | Hrf];
    [| destruct (Nat.ltb_spec to left) as [Htl | Htl]]; cbn [orb].
  1, 2: exists 0, []; split; [reflexivity |]; split; [reflexivity |];
        split; [intros; lia | constructor].
  destruct (Nat.leb_spec from left) as [Hfl | Hfl];
    [destruct (Nat.leb_spec right to) as [Hrt | Hrt] |]; cbn [andb].
  { (* the node lies inside the query *)
    exists index, []. split; [reflexivity |]. split; [intros; lia |].
    split; [| constructor]. intros _ _. split.
    - exists s. lia.
    - intros Ht Hc Hw.
      rewrite Nat.max_l, Nat.min_l by lia.
      replace (2 ^ L + left - 1) with (index * 2 ^ s) by lia.
      replace (right + 1 - left) with (2 ^ s) by lia.
      apply (node_scan dflt cmp Ht Hc m (2 ^ L) d Hlen Hw); lia. }
  (* the node is cut by the query: both halves are tried *)
  all: destruct s as [| s']; [rewrite Nat.pow_0_r in *; lia |].
  all: pose proof (pow2_pos s') as Hps'.
  all: rewrite (Nat.pow_succ_r' 2 s') in *.
  all: assert (Hcenter : (left + right) / 2 = left + 2 ^ s' - 1)
         by (replace (left + right) with (2 * (left + 2 ^ s' - 1) + 1) by lia;
             apply half_odd).
  all: rewrite Hcenter.
  all: destruct (IH s' (index * 2) left (left + 2 ^ s' - 1) ltac:(lia) ltac:(lia) ltac:(lia))
         as (i & tri & Hruni & Hi0 & Hin_i & Htri).
  all: destruct (IH s' (index * 2 + 1) (left + 2 ^ s' - 1 + 1) right
                   ltac:(lia) ltac:(lia) ltac:(lia))
         as (j & trj & Hrunj & Hj0 & Hin_j & Htrj).
  all: destruct (Nat.eqb_spec j 0) as [Hj | Hj].
  1, 3: (* nothing on the right *)
    assert (Hno : to < left + 2 ^ s' - 1 + 1)
      by (destruct (Nat.lt_ge_cases to (left + 2 ^ s' - 1 + 1)) as [| Hge]; [assumption |];
          destruct (Hin_j ltac:(lia) Hge) as [Hins _];
          apply inside_pos in Hins; lia);
    exists i, (tri ++ trj ++ []); split;
      [intros d' Hag; rewrite (bind_ok _ _ _ _ _ _ (Hruni d' Hag));
       rewrite (bind_ok _ _ _ _ _ _ (Hrunj d' Hag));
       destruct (Nat.eqb_spec j 0); [reflexivity | lia]
      | split; [intros; lia |];
        split; [| rewrite app_nil_r; apply Forall_app; auto];
        intros _ _; destruct (Hin_i ltac:(lia) ltac:(lia)) as [Hins Hsem];
        split; [exact Hins |];
        intros Ht Hc Hw; specialize (Hsem Ht Hc Hw);
        replace (min right to) with (min (left + 2 ^ s' - 1) to) by lia;
        exact Hsem].
  all: destruct (Nat.eqb_spec i 0) as [Hi | Hi].
  1, 3: (* nothing on the left *)
    assert (Hno : left + 2 ^ s' - 1 < from)
      by (destruct (Nat.lt_ge_cases (left + 2 ^ s' - 1) from) as [| Hge]; [assumption |];
          destruct (Hin_i Hge ltac:(lia)) as [Hins _];
          apply inside_pos in Hins; lia);
    exists j, (tri ++ trj ++ []); split;
      [intros d' Hag; rewrite (bind_ok _ _ _ _ _ _ (Hruni d' Hag));
       rewrite (bind_ok _ _ _ _ _ _ (Hrunj d' Hag));
       destruct (Nat.eqb_spec j 0); [lia |];
       destruct (Nat.eqb_spec i 0); [reflexivity | lia]
      | split; [intros; lia |];
        split; [| rewrite app_nil_r; apply Forall_app; auto];
        intros _ _; destruct (Hin_j ltac:(lia) ltac:(lia)) as [Hins Hsem];
        split; [exact Hins |];
        intros Ht Hc Hw; specialize (Hsem Ht Hc Hw);
        replace (max left from) with (max (left + 2 ^ s' - 1 + 1) from) by lia;
        exact Hsem].
  (* both halves found a node: the stored values decide *)
  all: assert (Hli : left + 2 ^ s' - 1 >= from) by (destruct (Nat.lt_ge_cases (left + 2 ^ s' - 1) from); [specialize (Hi0 ltac:(lia)); lia | lia]).
  all: assert (Hlj : left + 2 ^ s' - 1 + 1 <= to) by (destruct (Nat.lt_ge_cases to (left + 2 ^ s' - 1 + 1)); [specialize (Hj0 ltac:(lia)); lia | lia]).
  all: destruct (Hin_i ltac:(lia) ltac:(lia)) as [Hins_i Hsem_i].
  all: destruct (Hin_j ltac:(lia) ltac:(lia)) as [Hins_j Hsem_j].
  all: assert (Hsem : total cmp -> consistent cmp -> WInv dflt cmp m (2 ^ L) d ->
                 scan cmp (seg d (2 ^ L + max left from - 1)
                             (min right to + 1 - max left from))
                 = Some (opt (cell d i) (cell d j)))
         by (intros Ht Hc Hw;
             replace (min right to + 1 - max left from)
               with ((min (left + 2 ^ s' - 1) to + 1 - max left from)
                     + (min right to + 1 - max (left + 2 ^ s' - 1 + 1) from)) by lia;
             rewrite seg_app; apply (scan_app cmp Ht Hc);
             [apply Hsem_i; assumption |];
             replace (2 ^ L + max left from - 1
                      + (min (left + 2 ^ s' - 1) to + 1 - max left from))
               with (2 ^ L + max (left + 2 ^ s' - 1 + 1) from - 1) by lia;
             apply Hsem_j; assumption).
  all: unfold best in Hsem.
  all: destruct (Z.ltb_spec 0 (cmp (cell d i) (cell d j))) as [Hc | Hc].
  1, 3: exists j, (tri ++ trj ++ [Read i] ++ [Read j] ++ []); split;
      [intros d' Hag; rewrite (bind_ok _ _ _ _ _ _ (Hruni d' Hag));
       rewrite (bind_ok _ _ _ _ _ _ (Hrunj d' Hag));
       destruct (Nat.eqb_spec j 0); [lia |];
       destruct (Nat.eqb_spec i 0); [lia |];
       rewrite (bind_ok _ _ _ _ _ _ (agrees_read d' i Hag Hins_i));
       rewrite (bind_ok _ _ _ _ _ _ (agrees_read d' j Hag Hins_j));
       unfold call_compare, bind, ret;
       destruct (Z.geb_spec 0 (cmp (cell d i) (cell d j))); [lia | reflexivity]
      | split; [intros; lia |];
        split; [intros _ _; split; assumption |];
        apply Forall_app; split; [assumption |];
        apply Forall_app; split; [assumption |];
        repeat constructor; eexists; split; eauto].
  all: exists i, (tri ++ trj ++ [Read i] ++ [Read j] ++ []); split;
      [intros d' Hag; rewrite (bind_ok _ _ _ _ _ _ (Hruni d' Hag));
       rewrite (bind_ok _ _ _ _ _ _ (Hrunj d' Hag));
       destruct (Nat.eqb_spec j 0); [lia |];
       destruct (Nat.eqb_spec i 0); [lia |];
       rewrite (bind_ok _ _ _ _ _ _ (agrees_read d' i Hag Hins_i));
       rewrite (bind_ok _ _ _ _ _ _ (agrees_read d' j Hag Hins_j));
       unfold call_compare, bind, ret;
       destruct (Z.geb_spec 0 (cmp (cell d i) (cell d j))); [reflexivity | lia]
      | split; [intros; lia |];
        split; [intros _ _; split; assumption |];
        apply Forall_app; split; [assumption |];
        apply Forall_app; split; [assumption |];
        repeat constructor; eexists; split; eauto].
Qed.

End Query.

Lemma inside_off_path L m i from to q :
  m <= 2 ^ L -> i < m -> to < m -> i < from \/ to < i ->
  inside (2 ^ L) (from + 1) (to + 1) q ->
  q <> 2 ^ L + i /\ ~ on_path (2 ^ L + i) q.
Proof.
  intros Hm Hi Hto Hout (s & Hs1 & Hs2).
  pose proof (pow2_pos L) as HL. pose proof (pow2_pos s) as Hs.
  split.
  - intros ->. destruct s as [| s].
    + rewrite Nat.pow_0_r in *. lia.
    + rewrite Nat.pow_succ_r' in *. pose proof (pow2_pos s). nia.
  - intros (t & Ht & Hq). symmetry in Hq.
    apply div_pow2_bounds in Hq as Hb. destruct Hb as [Hb1 Hb2].
    destruct (Nat.le_gt_cases t L) as [HtL | HtL].
    + pose proof (anc_leftmost L (2 ^ L + i) t ltac:(lia) HtL) as Hl.
      rewrite Hq in Hl.
      assert (s = t) as -> by (apply (height_unique (2 ^ L) q); nia).
      nia.
    + rewrite (anc_zero L) in Hq by lia. subst q. simpl in Hs1. lia.
Qed.

Lemma inside_point n i q : inside n (i + 1) (i + 1) q -> q = n + i.
Proof.
  intros (s & Hs1 & Hs2). pose proof (pow2_pos s) as Hs.
  assert (2 ^ s = 1) as Heq by nia. rewrite Heq in *. lia.
Qed.

Section Api.

Context {T : Type}.
Variable dflt : T.

Abbreviation cell := (val dflt).

Lemma seg_elements (t : SegmentTree T) l a k :
  (forall p, p < m_ t -> data_ t !! (n_ t + p) = l !! p) ->
  a + k <= m_ t ->
  seg (data_ t) (n_ t + a) k = seg l a k.
Proof.
  intros Hleaf Hk. unfold seg. apply list_eq. intros i.
  destruct (Nat.lt_ge_cases i k) as [Hi | Hi].
  - rewrite !lookup_take_lt, !lookup_drop by lia.
    rewrite <- Nat.add_assoc. apply Hleaf. lia.
  - rewrite !lookup_take_ge by lia. reflexivity.
Qed.

Lemma get_value_spec (t : SegmentTree T) l from to :
  Inv dflt t l -> from <= to -> to < m_ t ->
  exists r tr,
    get_value t from to = Ok (cell (data_ t) r, tr) /\
    inside (n_ t) (from + 1) (to + 1) r /\
    Forall (fun a => exists q, a = Read q /\ inside (n_ t) (from + 1) (to + 1) q) tr /\
    (forall cmp, compare_ t = Some cmp -> total cmp -> consistent cmp ->
       scan cmp (sublist from to l) = Some (cell (data_ t) r)) /\
    (forall t', m_ t' = m_ t -> n_ t' = n_ t -> compare_ t' = compare_ t ->
       agrees (n_ t) (from + 1) (to + 1) (data_ t) (data_ t') ->
       get_value t' from to = Ok (cell (data_ t) r, tr)).
Proof.
  intros (cmp & L & Hc & Hn & Hm1 & Hmn & HL & Hlen & Hll & Hleaf & Hw) Hft Hto.
  pose proof (pow2_pos L) as HpL.
  assert (HLn : L < S (n_ t)) by (rewrite Hn; pose proof (Nat.pow_gt_lin_r 2 L); lia).
  rewrite Hn in Hlen, Hmn.
  destruct (get_value_sub_spec dflt cmp L (m_ t) (from + 1) (to + 1) (data_ t)
              Hmn ltac:(lia) ltac:(lia) ltac:(lia) Hlen (S (n_ t)) L 1 1 (n_ t)
              HLn ltac:(lia) ltac:(lia))
    as (r & tr & Hrun & _ & Hin & Htr).
  destruct (Hin ltac:(lia) ltac:(lia)) as [Hins Hsem].
  assert (Hr : r <> 0) by (apply inside_pos in Hins; lia).
  assert (Hrl : r < m_ t + 2 ^ L) by (apply inside_lt in Hins; lia).
  assert (Hgo : forall t', m_ t' = m_ t -> n_ t' = n_ t -> compare_ t' = compare_ t ->
                  agrees (2 ^ L) (from + 1) (to + 1) (data_ t) (data_ t') ->
                  get_value t' from to = Ok (cell (data_ t) r, tr ++ [Read r])).
  { intros t' Hm' Hn' Hc' Hag. unfold get_value, get_value_body.
    rewrite Hm', Hn', Hc', Hc.
    rewrite (bind_ok _ _ _ _ _ _
               (assert_true _ _ _ (proj2 (Nat.leb_le from to) Hft))).
    rewrite (bind_ok _ _ _ _ _ _
               (assert_true _ _ _ (proj2 (Nat.ltb_lt to (m_ t)) Hto))).
    rewrite (bind_ok _ _ _ _ _ _ (Hrun _ Hag)).
    destruct (Nat.eqb_spec r 0) as [| _]; [lia |]. cbn [negb].
    rewrite (bind_ok _ _ _ _ _ _ (assert_true _ _ _ eq_refl)).
    rewrite (agrees_read dflt L (m_ t) (from + 1) (to + 1) (data_ t) Hmn ltac:(lia) ltac:(lia) ltac:(lia) Hlen (data_ t') r Hag Hins).
    reflexivity. }
  exists r, (tr ++ [Read r]). split; [| split; [| split; [| split]]].
  - apply Hgo; auto. split; auto.
  - rewrite Hn. exact Hins.
  - rewrite Hn. apply Forall_app. split; [exact Htr |].
    repeat constructor. eexists; split; eauto.
  - intros cmp' Hc' Ht Hcs. rewrite Hc in Hc'. injection Hc' as <-.
    rewrite Hn in Hw. specialize (Hsem Ht Hcs Hw).
    rewrite Nat.max_r, Nat.min_r in Hsem by lia.
    replace (2 ^ L + (from + 1) - 1) with (n_ t + from) in Hsem by lia.
    replace (to + 1 + 1 - (from + 1)) with (to + 1 - from) in Hsem by lia.
    rewrite (seg_elements t l) in Hsem by (auto; lia). exact Hsem.
  - intros t' Hm' Hn' Hc' Hag. rewrite Hn in Hag. apply Hgo; auto.
Qed.

Lemma set_leaf_fail (t : SegmentTree T) i v :
  m_ t <= i -> set_leaf t i v = Fault (AssertionFailed "i < m_").
Proof.
  intros Hi. unfold set_leaf, set_leaf_body.
  rewrite (bind_fault _ _ _ _ (assert_false _ _ _ (proj2 (Nat.ltb_ge i (m_ t)) Hi))).
  reflexivity.
Qed.

Lemma Ready_Inv (t : SegmentTree T) l : Ready dflt t l -> Inv dflt t l.
Proof.
  induction 1 as [t data cmp t' tr Hp | t l i v t' tr _ IH Hs].
  - destruct data as [| x data]; [discriminate |].
    destruct (prepare_spec dflt t (x :: data) cmp ltac:(simpl; lia))
      as (t'' & tr'' & Hrun & _ & _ & Hinv & _).
    rewrite Hrun in Hp. injection Hp as <- <-. exact Hinv.
  - destruct (Nat.lt_ge_cases i (m_ t)) as [Hi | Hi].
    + destruct (set_leaf_spec dflt t l i v IH Hi) as (t'' & tr'' & Hrun & _ & _ & _ & _ & Hinv & _).
      rewrite Hrun in Hs. injection Hs as <- <-. exact Hinv.
    + rewrite (set_leaf_fail t i v Hi) in Hs. discriminate.
Qed.

End Api.

Section Sizes.

Context {T : Type}.
Variable dflt : T.

(** The element sequence of a Ready tree is what its leaves hold. *)
Lemma Ready_elements (t : SegmentTree T) l : Ready dflt t l -> elements t = l.
Proof.
  intros Hr. apply Ready_Inv in Hr.
  destruct Hr as (cmp & L & _ & _ & _ & _ & _ & Hlen & Hll & Hleaf & _).
  unfold elements. apply list_eq. intros p.
  destruct (Nat.lt_ge_cases p (m_ t)) as [Hp | Hp].
  - rewrite lookup_take_lt, lookup_drop by lia. apply Hleaf. exact Hp.
  - rewrite lookup_take_ge by lia. symmetry. apply lookup_ge_None. lia.
Qed.

(** An array of fewer than [2 ^ 63] elements gives [n_ <= 2 ^ 63] and a
    storage of fewer than [2 ^ 64] slots: the sizes fit [size_t]. *)
Lemma no_wrap_alloc (t : SegmentTree T) l :
  Ready dflt t l -> length l < 2 ^ 63 ->
  n_ t <= 2 ^ 63 /\ m_ t + n_ t < 2 ^ 64.
Proof.
  intros Hr Hl. apply Ready_Inv in Hr.
  destruct Hr as (cmp & L & _ & Hn & _ & Hmn & HL & _ & Hll & _).
  rewrite Hll in Hl.
  assert (Hle : n_ t <= 2 ^ 63).
  { rewrite Hn. apply (pow2_smallest L (m_ t) 63 HL). apply Nat.lt_le_incl. exact Hl. }
  split; [exact Hle |].
  change 64 with (S 63). rewrite Nat.pow_succ_r'.
  set (X := 2 ^ 63) in *. lia.
Qed.

End Sizes.

Section Queries.

Context {T : Type}.
Variable dflt : T.

Abbreviation cell := (val dflt).

Lemma Inv_length (t : SegmentTree T) l : Inv dflt t l -> length l = m_ t.
Proof. intros (cmp & L & _ & _ & _ & _ & _ & _ & Hll & _). exact Hll. Qed.

(** C1.  In a Ready tree whose comparator is total and consistent,
    [get_value(from, to)] with [from <= to < m] succeeds and returns what the
    left-to-right scan of the current elements [from..to] returns. *)
Theorem get_value_scan (t : SegmentTree T) (l : list T) (cmp : comparator T)
    (from to : nat) :
  Ready dflt t l -> compare_ t = Some cmp -> total cmp -> consistent cmp ->
  from <= to -> to < length l ->
  exists v tr,
    get_value t from to = Ok (v, tr) /\ scan cmp (sublist from to l) = Some v.
Proof.
  intros Hr Hc Ht Hcs Hft Hto. apply Ready_Inv in Hr.
  rewrite (Inv_length t l Hr) in Hto.
  destruct (get_value_spec dflt t l from to Hr Hft Hto)
    as (r & tr & Hrun & _ & _ & Hsem & _).
  exists (cell (data_ t) r), tr. split; [exact Hrun |].
  apply Hsem; assumption.
Qed.

(** C3.  After [set_leaf(i, v)] on a Ready tree, [get_value(i, i)] returns
    [v], and a query over a valid range that leaves [i] out runs as it did
    before the update: same reads, same result. *)
Theorem set_leaf_then_get_value (t : SegmentTree T) (l : list T) (i : nat) (v : T) :
  Ready dflt t l -> i < length l ->
  exists t' tr,
    set_leaf t i v = Ok (t', tr) /\
    (exists tr1, get_value t' i i = Ok (v, tr1)) /\
    (forall from to, from <= to -> to < length l -> i < from \/ to < i ->
       get_value t' from to = get_value t from to /\
       exists x trq, get_value t from to = Ok (x, trq)).
Proof.
  intros Hr Hi. apply Ready_Inv in Hr as Hinv.
  rewrite (Inv_length t l Hinv) in *.
  destruct (set_leaf_spec dflt t l i v Hinv Hi)
    as (t' & tr & Hrun & Hm' & Hn' & Hc' & Hlen' & Hinv' & Hnew & Hframe & _).
  exists t', tr. split; [exact Hrun |]. split.
  - destruct (get_value_spec dflt t' _ i i Hinv' ltac:(lia) ltac:(lia))
      as (r & tr1 & Hg & Hins & _).
    apply inside_point in Hins. subst r. rewrite Hn' in Hg.
    rewrite (val_lookup dflt _ _ _ Hnew) in Hg. eauto.
  - intros from to Hft Hto Hout.
    destruct (get_value_spec dflt t l from to Hinv Hft Hto)
      as (r & trq & Hg & _ & _ & _ & Hag).
    rewrite Hg. split; [| eauto]. apply Hag; auto.
    split; [exact Hlen' |]. intros q Hq.
    destruct Hinv as (cmp & L & _ & Hn & _ & Hmn & _).
    rewrite Hn in *.
    destruct (inside_off_path L (m_ t) i from to q Hmn Hi Hto Hout Hq) as [Hne Hoff].
    apply Hframe; assumption.
Qed.

(** C9.  In a Ready tree, [set_leaf] with [i < m] and [get_value] with
    [from <= to < m] run to completion, and every subscript they evaluate on
    the tree storage is below its size [m + n]; [get_value] only reads
    nodes whose leaves all lie in the queried range. *)
Theorem accesses_in_bounds (t : SegmentTree T) (l : list T) :
  Ready dflt t l ->
  length (data_ t) = m_ t + n_ t /\ m_ t = length l /\
  (forall i v, i < length l ->
     exists t' tr, set_leaf t i v = Ok (t', tr) /\
                   Forall (fun a => slot a < m_ t + n_ t) tr) /\
  (forall from to, from <= to -> to < length l ->
     exists x tr, get_value t from to = Ok (x, tr) /\
                  Forall (fun a => slot a < m_ t + n_ t /\
                                   exists q, a = Read q /\
                                     inside (n_ t) (from + 1) (to + 1) q) tr).
Proof.
  intros Hr. apply Ready_Inv in Hr as Hinv.
  pose proof (Inv_length t l Hinv) as Hll. rewrite Hll.
  split; [| split; [reflexivity |]; split].
  - destruct Hinv as (cmp & L & _ & _ & _ & _ & _ & Hlen & _). exact Hlen.
  - intros i v Hi.
    destruct (set_leaf_spec dflt t l i v Hinv Hi)
      as (t' & tr & Hrun & _ & _ & _ & _ & _ & _ & _ & Htr & _).
    exists t', tr. split; [exact Hrun |].
    eapply Forall_impl; [exact Htr |]. intros a [Ha _]. exact Ha.
  - intros from to Hft Hto.
    destruct (get_value_spec dflt t l from to Hinv Hft Hto)
      as (r & tr & Hg & _ & Htr & _).
    eexists _, tr. split; [exact Hg |].
    eapply Forall_impl; [exact Htr |]. intros a (q & -> & Hq).
    split; [| eauto]. simpl. apply inside_lt in Hq. lia.
Qed.

End Queries.

Lemma pow2_next_multiple L j s :
  1 <= j -> j * 2 ^ s < 2 * 2 ^ L -> (j + 1) * 2 ^ s <= 2 * 2 ^ L.
Proof.
  intros Hj Hlt. pose proof (pow2_pos s) as Hs.
  assert (HsL : s <= L).
  { assert (s < S L); [| lia]. apply (Nat.pow_lt_mono_r_iff 2); [lia |].
    rewrite Nat.pow_succ_r'. nia. }
  rewrite (pow2_split s L HsL) in *.
  assert (Hk : j < 2 * 2 ^ (L - s)) by nia.
  assert (Hk' : (j + 1) * 2 ^ s <= 2 * 2 ^ (L - s) * 2 ^ s)
    by (apply Nat.mul_le_mono_r; lia).
  lia.
Qed.

Section Order.

Context {T : Type}.
Variable dflt : T.

Abbreviation cell := (val dflt).

Lemma best_cases (cmp : comparator T) a b :
  best cmp a b = a /\ (cmp a b <= 0)%Z \/ best cmp a b = b /\ (0 < cmp a b)%Z.
Proof. unfold best. destruct (Z.ltb_spec 0 (cmp a b)); auto. Qed.

(** The scan returns the first of the optimal elements. *)
Lemma scan_leftmost (cmp : comparator T) :
  total cmp -> consistent cmp ->
  forall (l : list T) v, scan cmp l = Some v ->
    exists p, l !! p = Some v /\
      (forall q x, l !! q = Some x -> (cmp v x <= 0)%Z) /\
      (forall q x, q < p -> l !! q = Some x -> (0 < cmp x v)%Z).
Proof.
  intros Ht Hc. induction l as [| x l IH]; intros v Hv; [discriminate |].
  destruct l as [| y l].
  - injection Hv as <-. exists 0. split; [reflexivity |]. split.
    + intros [| q] z Hz; [| discriminate]. injection Hz as <-.
      destruct (Ht x x); assumption.
    + intros q z Hq. lia.
  - assert (Hv' : Some v = Some (best cmp x (fold_left (best cmp) l y))).
    { rewrite <- Hv. cbn. f_equal. apply fold_best_assoc; assumption. }
    injection Hv' as ->.
    destruct (IH (fold_left (best cmp) l y) eq_refl) as (p & Hp & Hopt & Hbefore).
    set (w := fold_left (best cmp) l y) in *.
    destruct (best_cases cmp x w) as [[-> Hle] | [-> Hgt]].
    + exists 0. split; [reflexivity |]. split.
      * intros [| q] z Hz.
        -- injection Hz as <-. destruct (Ht x x); assumption.
        -- apply (Hc x w z); [exact Hle |]. apply (Hopt q). exact Hz.
      * intros q z Hq. lia.
    + exists (S p). split; [exact Hp |]. split.
      * intros [| q] z Hz.
        -- injection Hz as <-. destruct (Ht x w); [lia | assumption].
        -- apply (Hopt q). exact Hz.
      * intros [| q] z Hq Hz.
        -- injection Hz as <-. exact Hgt.
        -- apply (Hbefore q); [lia | exact Hz].
Qed.

(** A node all of whose leaves are slots of the vector holds the value of
    one of its leaves. *)
Lemma node_select (cmp : comparator T) m n (d : list T) :
  WInv dflt cmp m n d ->
  forall s j, n <= j * 2 ^ s -> (j + 1) * 2 ^ s <= m + n ->
    exists q, j * 2 ^ s <= q /\ q < (j + 1) * 2 ^ s /\ cell d j = cell d q.
Proof.
  intros Hw. induction s as [| s IH]; intros j Hj1 Hj2.
  - exists j. rewrite Nat.pow_0_r. split; [lia |]. split; [lia | reflexivity].
  - pose proof (pow2_pos s) as Hs. rewrite Nat.pow_succ_r' in Hj1, Hj2 |- *.
    assert (Hwn : wnode dflt cmp m n d j s).
    { apply Hw; rewrite Nat.pow_succ_r'; nia. }
    unfold wnode in Hwn.
    destruct (Nat.ltb_spec ((j * 2 + 1) * 2 ^ s) (m + n)) as [Hlt | Hge]; [| nia].
    destruct (best_cases cmp (cell d (j * 2)) (cell d (j * 2 + 1))) as [[He _] | [He _]];
      rewrite He in Hwn.
    + destruct (IH (j * 2) ltac:(lia) ltac:(lia)) as (q & Hq1 & Hq2 & Hq).
      exists q. split; [lia |]. split; [lia | congruence].
    + destruct (IH (j * 2 + 1) ltac:(lia) ltac:(lia)) as (q & Hq1 & Hq2 & Hq).
      exists q. split; [lia |]. split; [lia | congruence].
Qed.

Lemma sublist_lookup (l : list T) from to p :
  from <= to -> p <= to - from -> sublist from to l !! p = l !! (from + p).
Proof.
  intros Hft Hp. unfold sublist, seg. rewrite lookup_take_lt by lia. apply lookup_drop.
Qed.

Lemma sublist_lookup_Some (l : list T) from to p x :
  sublist from to l !! p = Some x -> p <= to - from /\ l !! (from + p) = Some x.
Proof.
  unfold sublist, seg. intros H. apply lookup_take_Some in H as [H Hp].
  rewrite lookup_drop in H. split; [lia | exact H].
Qed.

(** C4.  In a Ready tree whose comparator is total and consistent,
    [get_value(from, to)] returns the element of the lowest index among the
    optimal ones of the range: nothing in the range is better than it, and
    everything before it in the range is strictly worse.  Both merges take
    the left value when the comparator returns 0. *)
Theorem get_value_leftmost (t : SegmentTree T) (l : list T) (cmp : comparator T)
    (from to : nat) :
  Ready dflt t l -> compare_ t = Some cmp -> total cmp -> consistent cmp ->
  from <= to -> to < length l ->
  (forall a b, cmp a b = 0%Z -> best cmp a b = a) /\
  exists p v tr,
    get_value t from to = Ok (v, tr) /\
    from <= p <= to /\ l !! p = Some v /\
    (forall q x, from <= q <= to -> l !! q = Some x -> (cmp v x <= 0)%Z) /\
    (forall q x, from <= q < p -> l !! q = Some x -> (0 < cmp x v)%Z).
Proof.
  intros Hr Hc Ht Hcs Hft Hto. split.
  { intros a b Hab. unfold best. rewrite Hab. reflexivity. }
  apply Ready_Inv in Hr. rewrite (Inv_length dflt t l Hr) in Hto.
  destruct (get_value_spec dflt t l from to Hr Hft Hto)
    as (r & tr & Hrun & _ & _ & Hsem & _).
  specialize (Hsem cmp Hc Ht Hcs).
  destruct (scan_leftmost cmp Ht Hcs _ _ Hsem) as (p & Hp & Hopt & Hbefore).
  apply sublist_lookup_Some in Hp as [Hp1 Hp2].
  exists (from + p), (cell (data_ t) r), tr.
  split; [exact Hrun |]. split; [lia |]. split; [exact Hp2 |]. split.
  - intros q x Hq Hx. apply (Hopt (q - from)).
    rewrite sublist_lookup by lia. replace (from + (q - from)) with q by lia. exact Hx.
  - intros q x Hq Hx. apply (Hbefore (q - from)); [lia |].
    rewrite sublist_lookup by lia. replace (from + (q - from)) with q by lia. exact Hx.
Qed.

(** C2.  In every Ready tree (after [prepare] and after each [set_leaf]), an
    internal node [i] whose subtree overlaps the valid leaves holds the
    optimum of its two children, the left one on a tie; when the subtree of
    the right child overlaps no valid leaf it holds the left child's value. *)
Theorem tree_invariant (t : SegmentTree T) (l : list T) (cmp : comparator T) (i : nat) :
  Ready dflt t l -> compare_ t = Some cmp ->
  1 <= i -> i < n_ t -> overlaps (m_ t) (n_ t) i ->
  exists a,
    data_ t !! (2 * i) = Some a /\
    (overlaps (m_ t) (n_ t) (2 * i + 1) ->
       exists b, data_ t !! (2 * i + 1) = Some b /\
                 data_ t !! i = Some (best cmp a b) /\
                 ((cmp a b <= 0)%Z -> data_ t !! i = Some a)) /\
    (~ overlaps (m_ t) (n_ t) (2 * i + 1) -> data_ t !! i = Some a).
Proof.
  intros Hr Hc Hi1 Hin Hov. apply Ready_Inv in Hr.
  destruct Hr as (cmp' & L & Hc' & Hn & Hm1 & Hmn & _ & Hlen & _ & _ & Hw).
  rewrite Hc in Hc'. injection Hc' as <-. rewrite Hn in *.
  destruct (height_exists L i Hi1 ltac:(lia)) as (s & Hs1 & Hs2).
  destruct s as [| s]; [rewrite Nat.pow_0_r in Hs1; lia |].
  pose proof (pow2_pos s) as Hps. pose proof (pow2_pos (S s)) as HpS.
  apply (overlaps_iff L (m_ t) i (S s) Hmn Hs1 Hs2) in Hov.
  specialize (Hw s i Hs1 Hov). unfold wnode in Hw.
  rewrite (Nat.mul_comm 2 i).
  rewrite Nat.pow_succ_r' in Hs1, Hs2, Hov.
  assert (Hl2 : i * 2 < length (data_ t)) by nia.
  assert (Hli : i < length (data_ t)) by lia.
  exists (cell (data_ t) (i * 2)). split; [apply lookup_val; exact Hl2 |].
  assert (Hiff : overlaps (m_ t) (2 ^ L) (i * 2 + 1) <->
                 (i * 2 + 1) * 2 ^ s < m_ t + 2 ^ L)
    by (pose proof (pow2_next_multiple L i (S s) Hi1) as Hnext;
        rewrite Nat.pow_succ_r' in Hnext;
        apply overlaps_iff; [exact Hmn | nia | nia]).
  destruct (Nat.ltb_spec ((i * 2 + 1) * 2 ^ s) (m_ t + 2 ^ L)) as [Hlt | Hge].
  - split; [| intros Hno; exfalso; apply Hno, Hiff; exact Hlt].
    intros _. exists (cell (data_ t) (i * 2 + 1)).
    split; [apply lookup_val; nia |].
    rewrite (lookup_val dflt (data_ t) i Hli), Hw. split; [reflexivity |].
    intros Hle. unfold best.
    destruct (Z.ltb_spec 0 (cmp (cell (data_ t) (i * 2)) (cell (data_ t) (i * 2 + 1))));
      [lia | reflexivity].
  - split; [intros Hyes; apply Hiff in Hyes; lia |].
    intros _. rewrite (lookup_val dflt (data_ t) i Hli), Hw. reflexivity.
Qed.

End Order.

Lemma pow2_bracket_unique m L K :
  m <= 2 ^ L -> (L = 0 \/ 2 ^ (L - 1) < m) ->
  m <= 2 ^ K -> (K = 0 \/ 2 ^ (K - 1) < m) -> 2 ^ L = 2 ^ K.
Proof.
  intros HL1 HL2 HK1 HK2.
  pose proof (pow2_smallest L m K HL2 HK1).
  pose proof (pow2_smallest K m L HK2 HL1). lia.
Qed.

Section Contracts.

Context {T : Type}.
Variable dflt : T.

Abbreviation cell := (val dflt).

Lemma get_value_fail_order (t : SegmentTree T) from to :
  to < from -> get_value t from to = Fault (AssertionFailed "from <= to").
Proof.
  intros H. unfold get_value, get_value_body.
  rewrite (bind_fault _ _ _ _ (assert_false _ _ _ (proj2 (Nat.leb_gt from to) H))).
  reflexivity.
Qed.

Lemma get_value_fail_range (t : SegmentTree T) from to :
  from <= to -> m_ t <= to -> get_value t from to = Fault (AssertionFailed "to < m_").
Proof.
  intros H1 H2. unfold get_value, get_value_body.
  rewrite (bind_ok _ _ _ _ _ _ (assert_true _ _ _ (proj2 (Nat.leb_le from to) H1))).
  rewrite (bind_fault _ _ _ _ (assert_false _ _ _ (proj2 (Nat.ltb_ge to (m_ t)) H2))).
  reflexivity.
Qed.

(** C6.  Each operation stops at once exactly when its precondition is
    violated, and runs to completion otherwise.  The class has one way to
    stop, a failed [assert]; [spec_error] gives the name the spec has for
    each: InvalidArgument for [prepare] without data, with [m = 0] or
    without comparator and for [get_value] with [from > to] or [to >= m],
    OutOfRange for [set_leaf] with [i >= m]. *)
Theorem fail_fast (t0 t : SegmentTree T) (l data : list T) (cmp : comparator T)
    (from to i : nat) (v : T) :
  Ready dflt t l ->
  (forall c, prepare dflt t0 None c = Fault (AssertionFailed "data")) /\
  (forall c, prepare dflt t0 (Some []) c = Fault (AssertionFailed "n")) /\
  (data <> [] -> prepare dflt t0 (Some data) None = Fault (AssertionFailed "compare")) /\
  (data <> [] -> exists t' tr, prepare dflt t0 (Some data) (Some cmp) = Ok (t', tr)) /\
  (to < from -> get_value t from to = Fault (AssertionFailed "from <= to")) /\
  (from <= to -> length l <= to ->
     get_value t from to = Fault (AssertionFailed "to < m_")) /\
  (from <= to -> to < length l -> exists x tr, get_value t from to = Ok (x, tr)) /\
  (length l <= i -> set_leaf t i v = Fault (AssertionFailed "i < m_")) /\
  (i < length l -> exists t' tr, set_leaf t i v = Ok (t', tr)) /\
  spec_error (AssertionFailed "data") = Some InvalidArgument /\
  spec_error (AssertionFailed "n") = Some InvalidArgument /\
  spec_error (AssertionFailed "compare") = Some InvalidArgument /\
  spec_error (AssertionFailed "from <= to") = Some InvalidArgument /\
  spec_error (AssertionFailed "to < m_") = Some InvalidArgument /\
  spec_error (AssertionFailed "i < m_") = Some OutOfRange.
Proof.
  intros Hr. apply Ready_Inv in Hr as Hinv.
  pose proof (Inv_length dflt t l Hinv) as Hll. rewrite Hll.
  split; [reflexivity |]. split; [reflexivity |]. split; [| split].
  - intros Hd. destruct data; [congruence | reflexivity].
  - intros Hd.
    destruct (prepare_spec dflt t0 data cmp) as (t' & tr & Hrun & _).
    { destruct data; [congruence | simpl; lia]. }
    eauto.
  - split; [apply get_value_fail_order |].
    split; [apply get_value_fail_range |]. split; [| split; [| split]].
    + intros Hft Hto.
      destruct (get_value_spec dflt t l from to Hinv Hft Hto) as (r & tr & Hg & _).
      eauto.
    + apply set_leaf_fail.
    + intros Hi.
      destruct (set_leaf_spec dflt t l i v Hinv Hi) as (t' & tr & Hrun & _). eauto.
    + repeat split; reflexivity.
Qed.

(** C8.  In a Ready tree over [m] elements, [n_] is the smallest power of
    two that is at least [m] (1, 2, 8, 8, 16 for m = 1, 2, 5, 8, 10), the
    storage has [m + n_] slots, and a valid query returns the value of a
    leaf of its range and evaluates no subscript at or beyond [n_ + m],
    where the padding positions would lie. *)
Theorem sizing_and_padding (t : SegmentTree T) (l : list T) :
  Ready dflt t l ->
  (exists L, n_ t = 2 ^ L) /\ length l <= n_ t /\
  (forall k, length l <= 2 ^ k -> n_ t <= 2 ^ k) /\
  (length l = 1 -> n_ t = 1) /\ (length l = 2 -> n_ t = 2) /\
  (length l = 5 -> n_ t = 8) /\ (length l = 8 -> n_ t = 8) /\
  (length l = 10 -> n_ t = 16) /\
  m_ t = length l /\ length (data_ t) = length l + n_ t /\
  (forall from to, from <= to -> to < length l ->
     exists v tr p,
       get_value t from to = Ok (v, tr) /\
       from <= p <= to /\ data_ t !! (n_ t + p) = Some v /\ l !! p = Some v /\
       Forall (fun a => slot a < n_ t + length l) tr).
Proof.
  intros Hr. apply Ready_Inv in Hr as Hinv.
  pose proof (Inv_length dflt t l Hinv) as Hll. rewrite Hll.
  destruct Hinv as (cmp & L & Hc & Hn & Hm1 & Hmn & HL & Hlen & _ & Hleaf & Hw).
  assert (Hex : forall K, m_ t <= 2 ^ K -> (K = 0 \/ 2 ^ (K - 1) < m_ t) -> n_ t = 2 ^ K).
  { intros K HK1 HK2. rewrite Hn. rewrite Hn in Hmn.
    apply (pow2_bracket_unique (m_ t)); assumption. }
  split; [eauto |]. split; [exact Hmn |].
  split; [intros k Hk; rewrite Hn; apply (pow2_smallest L (m_ t) k HL Hk) |].
  split; [intros Hm; apply (Hex 0); rewrite Hm; simpl; lia |].
  split; [intros Hm; apply (Hex 1); rewrite Hm; simpl; lia |].
  split; [intros Hm; apply (Hex 3); rewrite Hm; simpl; lia |].
  split; [intros Hm; apply (Hex 3); rewrite Hm; simpl; lia |].
  split; [intros Hm; apply (Hex 4); rewrite Hm; simpl; lia |].
  split; [reflexivity |]. split; [exact Hlen |].
  intros from to Hft Hto.
  destruct (get_value_spec dflt t l from to
              (Ready_Inv dflt t l Hr) Hft Hto) as (r & tr & Hg & Hins & Htr & _).
  destruct Hins as (s & Hs1 & Hs2).
  rewrite Hn in *.
  destruct (node_select dflt cmp (m_ t) (2 ^ L) (data_ t) Hw s r ltac:(lia) ltac:(lia))
    as (q & Hq1 & Hq2 & Hq).
  exists (cell (data_ t) r), tr, (q - 2 ^ L).
  split; [exact Hg |]. split; [lia |].
  replace (2 ^ L + (q - 2 ^ L)) with q by lia.
  assert (Hqv : data_ t !! q = Some (cell (data_ t) r)).
  { rewrite Hq. apply lookup_val. lia. }
  split; [exact Hqv |]. split.
  - rewrite <- Hleaf by lia. replace (2 ^ L + (q - 2 ^ L)) with q by lia. exact Hqv.
  - eapply Forall_impl; [exact Htr |]. intros a (q' & -> & Hq').
    simpl. apply inside_lt in Hq'. lia.
Qed.

(** The frame of [set_leaf] that does hold.  [set_leaf(i, v)] on a Ready
    tree with [i < m] leaves every slot as it was, except the leaf slot
    [n + i] and the slots met when that index is halved again and again;
    the last of these is slot 0, reached from the root 1, which is no
    ancestor of the leaf ([set_leaf_changes_slot0] below).  Every other leaf
    slot [n + j] keeps its value, and every write of the run goes to one of
    these slots. *)
Theorem set_leaf_frame (t : SegmentTree T) (l : list T) (i : nat) (v : T) :
  Ready dflt t l -> i < length l ->
  exists t' tr,
    set_leaf t i v = Ok (t', tr) /\
    m_ t' = m_ t /\ n_ t' = n_ t /\ length (data_ t') = length (data_ t) /\
    (forall s, s <> n_ t + i -> (forall k, 1 <= k -> s <> (n_ t + i) / 2 ^ k) ->
               data_ t' !! s = data_ t !! s) /\
    (forall j, j <> i -> data_ t' !! (n_ t + j) = data_ t !! (n_ t + j)) /\
    Forall (fun a => forall s, a = Write s ->
                       s = n_ t + i \/ exists k, 1 <= k /\ s = (n_ t + i) / 2 ^ k) tr.
Proof.
  intros Hr Hi. apply Ready_Inv in Hr as Hinv.
  rewrite (Inv_length dflt t l Hinv) in Hi.
  destruct (set_leaf_spec dflt t l i v Hinv Hi)
    as (t' & tr & Hrun & Hm' & Hn' & _ & Hlen' & _ & _ & Hframe & Htr & _).
  exists t', tr. split; [exact Hrun |].
  split; [exact Hm' |]. split; [exact Hn' |]. split; [exact Hlen' |].
  split; [| split].
  - intros s Hs Hoff. apply Hframe; [exact Hs |].
    intros (k & Hk & Heq). apply (Hoff k Hk Heq).
  - intros j Hj. apply Hframe; [lia |].
    destruct Hinv as (cmp & L & _ & Hn & _ & Hmn & _). rewrite Hn in *.
    apply leaf_off_path. lia.
  - eapply Forall_impl; [exact Htr |]. intros a [_ Ha] s Hs.
    destruct (Ha s Hs) as [-> | Hon]; [left; reflexivity | right; exact Hon].
Qed.

(** Every completed [set_leaf] ends with an assignment to [data_[0]]. *)
Lemma set_leaf_writes_slot0 (t : SegmentTree T) (l : list T) (i : nat) (v : T) :
  Ready dflt t l -> i < length l ->
  exists t' tr tr', set_leaf t i v = Ok (t', tr) /\ tr = tr' ++ [Write 0].
Proof.
  intros Hr Hi. apply Ready_Inv in Hr as Hinv.
  rewrite (Inv_length dflt t l Hinv) in Hi.
  destruct (set_leaf_spec dflt t l i v Hinv Hi)
    as (t' & tr & Hrun & _ & _ & _ & _ & _ & _ & _ & _ & tr' & Hlast).
  eauto.
Qed.

End Contracts.

Lemma compare_sign a b :
  ((a < b -> compare a b = -1) /\ (a = b -> compare a b = 0) /\
   (a > b -> compare a b = 1))%Z.
Proof.
  unfold compare. rewrite Z.gtb_ltb.
  destruct (Z.ltb_spec a b); destruct (Z.ltb_spec b a); repeat split; lia.
Qed.

Lemma compare_total : total compare.
Proof.
  intros a b. pose proof (compare_sign a b) as (? & ? & ?).
  pose proof (compare_sign b a) as (? & ? & ?).
  destruct (Z.lt_trichotomy a b) as [? | [? | ?]]; lia.
Qed.

Lemma compare_consistent : consistent compare.
Proof.
  intros a b c. pose proof (compare_sign a b) as (? & ? & ?).
  pose proof (compare_sign b c) as (? & ? & ?).
  pose proof (compare_sign a c) as (? & ? & ?).
  destruct (Z.lt_trichotomy a b) as [? | [? | ?]];
    destruct (Z.lt_trichotomy b c) as [? | [? | ?]]; lia.
Qed.

Lemma compare_key_total : total compare_key.
Proof. intros a b. apply compare_total. Qed.

Lemma compare_key_consistent : consistent compare_key.
Proof. intros a b c. apply compare_consistent. Qed.

Lemma main_ready : Ready 0%Z (tree_of main_tree) main_data.
Proof.
  apply (Ready_prepare 0%Z new_tree main_data compare _ (trace_of main_tree)).
  vm_compute. reflexivity.
Defined.

Lemma tie_ready : Ready (0%Z, 0) (tree_of tie_tree) tie_data.
Proof.
  apply (Ready_prepare (0%Z, 0) new_tree tie_data compare_key _ (trace_of tie_tree)).
  vm_compute. reflexivity.
Defined.

(** C7.  The run of main.cpp: over 7, 2, 4, 3, 9, 8, 0, 6, 5, 1 with the
    ascending comparator, the five queries return 2, 3, 0, 5 and 1. *)
Theorem main_scenario :
  exists t tr,
    main_tree = Ok (t, tr) /\
    value_of (get_value t 1 2) = Some 2%Z /\
    value_of (get_value t 2 4) = Some 3%Z /\
    value_of (get_value t 3 7) = Some 0%Z /\
    value_of (get_value t 8 8) = Some 5%Z /\
    value_of (get_value t 7 9) = Some 1%Z.
Proof.
  exists (tree_of main_tree), (trace_of main_tree).
  split; [vm_compute; reflexivity |]. vm_compute. repeat split.
Qed.

(** C5.  The claim fails on the code: the last round of the loop of
    [update] runs with [i = 0], reads [data_[0]] and [data_[1]] and assigns
    [data_[0]].  Here [prepare] over the data of main.cpp already touches
    slot 0, and [set_leaf(9, -4)] changes it from 0 to -4. *)
Theorem update_touches_slot0 :
  let t := tree_of main_tree in
  let r := set_leaf t 9 (-4)%Z in
  In (Read 0) (trace_of main_tree) /\ In (Write 0) (trace_of main_tree) /\
  trace_of r =
    [Write 25; Read 24; Read 25; Read 25; Write 12; Read 12; Write 6; Read 6;
     Write 3; Read 2; Read 3; Read 3; Write 1; Read 0; Read 1; Read 1; Write 0] /\
  data_ t !! 0 = Some 0%Z /\
  data_ (tree_of r) !! 0 = Some (-4)%Z.
Proof.
  vm_compute. repeat split; auto 200.
Qed.

(** C10.  The claim fails on the code, by the defect of C5.  On the tree
    of main.cpp [set_leaf(9, -4)] assigns the leaf slot 25 and its ancestors
    12, 6, 3 and 1 (the quotients of 25 by powers of two that are nodes), and
    then slot 0 as well: slot 0 is none of these, and it goes from 0 to
    -4. *)
Theorem set_leaf_changes_slot0 :
  let t := tree_of main_tree in
  let t' := tree_of main_updated in
  main_updated = Ok (t', trace_of main_updated) /\
  n_ t + 9 = 25 /\
  (forall k, 1 <= k -> 1 <= 25 / 2 ^ k -> In (25 / 2 ^ k) [12; 6; 3; 1]) /\
  ~ In 0 [25; 12; 6; 3; 1] /\
  In (Write 0) (trace_of main_updated) /\
  data_ t !! 0 = Some 0%Z /\
  data_ t' !! 0 = Some (-4)%Z.
Proof.
  cbv zeta. split; [vm_compute; reflexivity |]. split; [vm_compute; reflexivity |].
  split.
  { intros k Hk Hq.
    destruct k as [| [| [| [| [| k]]]]];
      [lia | vm_compute; auto | vm_compute; auto | vm_compute; auto
      | vm_compute; auto |].
    rewrite (anc_zero 4 25 (S (S (S (S (S k)))))) in Hq; [lia | simpl; lia | lia]. }
  split; [simpl; lia |].
  vm_compute. repeat split; auto 200.
Qed.

Lemma get_value_scan_witness :
  exists v tr,
    get_value (tree_of main_tree) 3 7 = Ok (v, tr) /\
    scan compare (sublist 3 7 main_data) = Some v.
Proof.
  apply (get_value_scan 0%Z (tree_of main_tree) main_data compare 3 7 main_ready);
    [vm_compute; reflexivity | exact compare_total | exact compare_consistent
    | lia | simpl; lia].
Defined.

Lemma tree_invariant_witness :
  overlaps 10 16 6 /\
  exists a,
    data_ (tree_of main_tree) !! (2 * 6) = Some a /\
    (overlaps (m_ (tree_of main_tree)) (n_ (tree_of main_tree)) (2 * 6 + 1) ->
       exists b, data_ (tree_of main_tree) !! (2 * 6 + 1) = Some b /\
                 data_ (tree_of main_tree) !! 6 = Some (best compare a b) /\
                 ((compare a b <= 0)%Z -> data_ (tree_of main_tree) !! 6 = Some a)) /\
    (~ overlaps (m_ (tree_of main_tree)) (n_ (tree_of main_tree)) (2 * 6 + 1) ->
       data_ (tree_of main_tree) !! 6 = Some a).
Proof.
  split; [exists 8; split; [lia | exists 2; reflexivity] |].
  apply (tree_invariant 0%Z (tree_of main_tree) main_data compare 6 main_ready);
    [vm_compute; reflexivity | lia | vm_compute; lia |].
  exists 8. split; [vm_compute; lia | exists 2; vm_compute; reflexivity].
Defined.

Lemma set_leaf_then_get_value_witness :
  9 < length main_data /\
  exists t' tr,
    set_leaf (tree_of main_tree) 9 (-4)%Z = Ok (t', tr) /\
    (exists tr1, get_value t' 9 9 = Ok ((-4)%Z, tr1)) /\
    (forall from to, from <= to -> to < length main_data -> 9 < from \/ to < 9 ->
       get_value t' from to = get_value (tree_of main_tree) from to /\
       exists x trq, get_value (tree_of main_tree) from to = Ok (x, trq)).
Proof.
  split; [simpl; lia |].
  apply (set_leaf_then_get_value 0%Z (tree_of main_tree) main_data 9 (-4)%Z main_ready).
  simpl; lia.
Defined.

Lemma get_value_leftmost_witness :
  (forall a b, compare_key a b = 0%Z -> best compare_key a b = a) /\
  exists p v tr,
    get_value (tree_of tie_tree) 0 3 = Ok (v, tr) /\
    0 <= p <= 3 /\ tie_data !! p = Some v /\
    (forall q x, 0 <= q <= 3 -> tie_data !! q = Some x -> (compare_key v x <= 0)%Z) /\
    (forall q x, 0 <= q < p -> tie_data !! q = Some x -> (0 < compare_key x v)%Z).
Proof.
  apply (get_value_leftmost (0%Z, 0) (tree_of tie_tree) tie_data compare_key 0 3 tie_ready);
    [vm_compute; reflexivity | exact compare_key_total | exact compare_key_consistent
    | lia | simpl; lia].
Defined.

Lemma fail_fast_witness :
  Ready 0%Z (tree_of main_tree) main_data /\
  prepare 0%Z new_tree (Some []) (Some compare) = Fault (AssertionFailed "n") /\
  get_value (tree_of main_tree) 5 2 = Fault (AssertionFailed "from <= to") /\
  set_leaf (tree_of main_tree) 10 0%Z = Fault (AssertionFailed "i < m_").
Proof.
  split; [exact main_ready |].
  destruct (fail_fast 0%Z new_tree (tree_of main_tree) main_data main_data compare
              5 2 10 0%Z main_ready)
    as (_ & Hn & _ & _ & Hg & _ & _ & Hs & _).
  split; [apply Hn |]. split; [apply Hg; lia | apply Hs; simpl; lia].
Defined.

Lemma sizing_and_padding_witness :
  Ready 0%Z (tree_of main_tree) main_data /\
  n_ (tree_of main_tree) = 16 /\
  length (data_ (tree_of main_tree)) = length main_data + n_ (tree_of main_tree) /\
  exists v tr p,
    get_value (tree_of main_tree) 7 9 = Ok (v, tr) /\
    7 <= p <= 9 /\ main_data !! p = Some v /\
    Forall (fun a => slot a < n_ (tree_of main_tree) + length main_data) tr.
Proof.
  split; [exact main_ready |].
  destruct (sizing_and_padding 0%Z (tree_of main_tree) main_data main_ready)
    as (_ & _ & _ & _ & _ & _ & _ & H10 & _ & Hlen & Hq).
  split; [apply H10; reflexivity |]. split; [exact Hlen |].
  destruct (Hq 7 9 ltac:(lia) ltac:(simpl; lia)) as (v & tr & p & Hg & Hp & _ & Hl & Htr).
  exists v, tr, p. auto.
Defined.

Lemma accesses_in_bounds_witness :
  Ready 0%Z (tree_of main_tree) main_data /\
  (exists t' tr, set_leaf (tree_of main_tree) 9 (-4)%Z = Ok (t', tr) /\
                 Forall (fun a => slot a < 10 + 16) tr) /\
  (exists x tr, get_value (tree_of main_tree) 0 9 = Ok (x, tr) /\
                Forall (fun a => slot a < 10 + 16 /\
                                 exists q, a = Read q /\ inside 16 (0 + 1) (9 + 1) q) tr).
Proof.
  split; [exact main_ready |].
  destruct (accesses_in_bounds 0%Z (tree_of main_tree) main_data main_ready)
    as (_ & _ & Hs & Hg).
  split; [apply (Hs 9 (-4)%Z); simpl; lia | apply (Hg 0 9); [lia | simpl; lia]].
Defined.

Lemma set_leaf_frame_witness :
  Ready 0%Z (tree_of main_tree) main_data /\
  exists t' tr,
    set_leaf (tree_of main_tree) 9 (-4)%Z = Ok (t', tr) /\
    data_ t' !! 24 = data_ (tree_of main_tree) !! 24 /\
    data_ t' !! 2 = data_ (tree_of main_tree) !! 2.
Proof.
  split; [exact main_ready |].
  destruct (set_leaf_frame 0%Z (tree_of main_tree) main_data 9 (-4)%Z main_ready
              ltac:(simpl; lia))
    as (t' & tr & Hrun & _ & _ & _ & Hframe & Hleaf & _).
  exists t', tr. split; [exact Hrun |]. split.
  - apply (Hleaf 8). lia.
  - apply Hframe; [vm_compute; lia |].
    intros k Hk. change (n_ (tree_of main_tree) + 9) with 25.
    destruct k as [| [| [| [| [| k]]]]];
      [lia | vm_compute; lia | vm_compute; lia | vm_compute; lia | vm_compute; lia |].
    rewrite (anc_zero 4 25 (S (S (S (S (S k)))))); [lia | simpl; lia | lia].
Defined.

(** * Further properties of the methods *)

Section RawAccess.

Context {T : Type}.
Variable dflt : T.

Abbreviation cell := (val dflt).

Lemma Inv_data_length (t : SegmentTree T) l :
  Inv dflt t l -> length (data_ t) = m_ t + n_ t.
Proof. intros (cmp & L & _ & _ & _ & _ & _ & Hlen & _). exact Hlen. Qed.

Lemma Inv_leaf (t : SegmentTree T) l p :
  Inv dflt t l -> p < m_ t -> data_ t !! (n_ t + p) = l !! p.
Proof. intros (cmp & L & _ & _ & _ & _ & _ & _ & _ & Hleaf & _). apply Hleaf. Qed.

(** X1.  On a Ready tree the guard [i < m_ + n_] of [get_raw_data] is the
    size of the vector: the method returns the slot [data_[i]] exactly for
    the indices inside the vector and the null pointer for all others. *)
Theorem get_raw_data_guard (t : SegmentTree T) (l : list T) (i : nat) :
  Ready dflt t l ->
  get_raw_data t i = data_ t !! i /\
  (is_Some (get_raw_data t i) <-> i < length (data_ t)) /\
  (get_raw_data t i = None <-> m_ t + n_ t <= i).
Proof.
  intros Hr. apply Ready_Inv in Hr.
  pose proof (Inv_data_length t l Hr) as Hlen. unfold get_raw_data.
  destruct (Nat.ltb_spec i (m_ t + n_ t)) as [Hlt | Hge].
  - split; [reflexivity |]. split.
    + rewrite lookup_lt_is_Some. tauto.
    + rewrite lookup_ge_None. lia.
  - split; [symmetry; apply lookup_ge_None; lia |]. split.
    + split; [intros [x Hx]; discriminate | lia].
    + tauto.
Qed.

(** X2.  The leaf slots hold the element sequence: on a Ready tree
    [get_raw_data(n_ + p)] points to element [p], after [prepare] and after
    every [set_leaf]. *)
Theorem get_raw_data_leaf (t : SegmentTree T) (l : list T) (p : nat) :
  Ready dflt t l -> p < length l ->
  get_raw_data t (n_ t + p) = l !! p.
Proof.
  intros Hr Hp. apply Ready_Inv in Hr.
  rewrite (Inv_length dflt t l Hr) in Hp. unfold get_raw_data.
  destruct (Nat.ltb_spec (n_ t + p) (m_ t + n_ t)) as [_ | Hge]; [| lia].
  apply (Inv_leaf t l p Hr Hp).
Qed.

(** X7.  A query over one position returns the element at that position
    whatever the comparator does, and reads nothing but its leaf slot. *)
Theorem get_value_point (t : SegmentTree T) (l : list T) (i : nat) :
  Ready dflt t l -> i < length l ->
  exists x tr,
    get_value t i i = Ok (x, tr) /\ l !! i = Some x /\
    Forall (fun a => a = Read (n_ t + i)) tr.
Proof.
  intros Hr Hi. apply Ready_Inv in Hr.
  rewrite (Inv_length dflt t l Hr) in Hi.
  destruct (get_value_spec dflt t l i i Hr ltac:(lia) Hi)
    as (r & tr & Hg & Hins & Htr & _).
  apply inside_point in Hins. subst r.
  exists (cell (data_ t) (n_ t + i)), tr. split; [exact Hg |]. split.
  - rewrite <- (Inv_leaf t l i Hr Hi). apply lookup_val.
    rewrite (Inv_data_length t l Hr). lia.
  - eapply Forall_impl; [exact Htr |]. intros a (q & -> & Hq).
    apply inside_point in Hq. subst q. reflexivity.
Qed.

(** X8.  The two private helpers keep to their halves of the vector, as
    their comments say: [set_leaf_simply] assigns the one leaf slot
    [n_ + i] and no internal node, [update] changes no leaf slot. *)
Theorem helpers_keep_apart (L m i : nat) (v : T) (cmp : comparator T) (d : list T) :
  i < m -> m <= 2 ^ L -> length d = m + 2 ^ L ->
  (exists d1,
     set_leaf_simply m (2 ^ L) i v d = Ok (tt, d1, [Write (2 ^ L + i)]) /\
     d1 !! (2 ^ L + i) = Some v /\
     forall s, s <> 2 ^ L + i -> d1 !! s = d !! s) /\
  (exists d2 tr,
     update m (2 ^ L) (Some cmp) i d = Ok (tt, d2, tr) /\
     length d2 = length d /\
     forall s, 2 ^ L <= s -> d2 !! s = d !! s).
Proof.
  intros Hi Hm Hl. split.
  - exists (<[2 ^ L + i:=v]> d).
    split; [apply set_leaf_simply_spec; assumption |]. split.
    + apply list_lookup_insert_eq. lia.
    + intros s Hs. apply list_lookup_insert_ne. lia.
  - destruct (update_spec dflt cmp L m i d Hi Hm Hl)
      as (d2 & tr & Hrun & Hlen & Hframe & _).
    exists d2, tr. split; [exact Hrun |]. split; [exact Hlen |].
    intros s Hs. apply Hframe.
    replace s with (2 ^ L + (s - 2 ^ L)) by lia. apply leaf_off_path. lia.
Qed.

(** X6.  [prepare] over a non-empty array and a comparator succeeds from
    any earlier state of the object: it stores the count and the
    comparator, leaves the array in the leaves, and evaluates no subscript
    outside the vector it has just resized. *)
Theorem prepare_builds (t0 : SegmentTree T) (data : list T) (cmp : comparator T) :
  data <> [] ->
  exists t' tr,
    prepare dflt t0 (Some data) (Some cmp) = Ok (t', tr) /\
    m_ t' = length data /\ compare_ t' = Some cmp /\
    length (data_ t') = m_ t' + n_ t' /\
    elements t' = data /\
    Forall (fun a => slot a < length (data_ t')) tr.
Proof.
  intros Hd.
  destruct (prepare_spec dflt t0 data cmp) as (t' & tr & Hrun & Hm & Hc & Hinv & Htr).
  { destruct data; [congruence | simpl; lia]. }
  exists t', tr. split; [exact Hrun |]. split; [exact Hm |]. split; [exact Hc |].
  pose proof (Inv_data_length t' data Hinv) as Hlen.
  split; [exact Hlen |]. split.
  - apply (Ready_elements dflt). eapply Ready_prepare. exact Hrun.
  - rewrite Hlen. exact Htr.
Qed.

(** X11.  Before [prepare] the object is empty: every [set_leaf] and every
    [get_value] stops at its first range assertion, so neither the empty
    vector nor the null comparator is used, and [get_raw_data] returns the
    null pointer for every index. *)
Theorem unbuilt_tree (i from to : nat) (v : T) :
  set_leaf (@new_tree T) i v = Fault (AssertionFailed "i < m_") /\
  (to < from -> get_value (@new_tree T) from to = Fault (AssertionFailed "from <= to")) /\
  (from <= to -> get_value (@new_tree T) from to = Fault (AssertionFailed "to < m_")) /\
  get_raw_data (@new_tree T) i = None.
Proof.
  split; [apply set_leaf_fail; simpl; lia |].
  split; [apply get_value_fail_order |].
  split; [intros H; apply get_value_fail_range; [exact H | simpl; lia] |].
  reflexivity.
Qed.

End RawAccess.

Section Semantics.

Context {T : Type}.
Variable dflt : T.

Abbreviation cell := (val dflt).

Lemma seg_beyond (d : list T) a len : length d <= a -> seg d a len = [].
Proof. intros H. unfold seg. rewrite drop_ge by lia. apply take_nil. Qed.

(** Every node whose leftmost leaf is a slot of the vector holds the result
    of the scan over the leaves it has in the vector. *)
Lemma node_scan_valid (cmp : comparator T) m n (d : list T) :
  total cmp -> consistent cmp ->
  length d = m + n -> WInv dflt cmp m n d ->
  forall s j, n <= j * 2 ^ s -> j * 2 ^ s < m + n ->
    scan cmp (seg d (j * 2 ^ s) (2 ^ s)) = Some (cell d j).
Proof.
  intros Ht Hc Hl Hw. induction s as [| s IH]; intros j Hj1 Hj2.
  - rewrite Nat.pow_0_r, Nat.mul_1_r in *. rewrite (seg_one dflt) by lia. reflexivity.
  - pose proof (pow2_pos s) as Hs.
    pose proof (Hw s j Hj1 Hj2) as Hwn. unfold wnode in Hwn.
    rewrite Nat.pow_succ_r' in Hj1, Hj2 |- *.
    replace (2 * 2 ^ s) with (2 ^ s + 2 ^ s) by lia. rewrite seg_app.
    replace (j * (2 ^ s + 2 ^ s)) with (j * 2 * 2 ^ s) by lia.
    replace (j * 2 * 2 ^ s + 2 ^ s) with ((j * 2 + 1) * 2 ^ s) by lia.
    destruct (Nat.ltb_spec ((j * 2 + 1) * 2 ^ s) (m + n)) as [Hlt | Hge].
    + rewrite Hwn. apply (scan_app cmp Ht Hc); apply IH; lia.
    + rewrite (seg_beyond d ((j * 2 + 1) * 2 ^ s)) by lia.
      rewrite app_nil_r, Hwn. apply IH; lia.
Qed.

Lemma seg_leaves (t : SegmentTree T) l a k :
  Inv dflt t l -> seg (data_ t) (n_ t + a) k = seg l a k.
Proof.
  intros Hinv. pose proof (Inv_length dflt t l Hinv) as Hll.
  pose proof (Inv_data_length dflt t l Hinv) as Hlen.
  unfold seg. apply list_eq. intros i.
  destruct (Nat.lt_ge_cases i k) as [Hi | Hi].
  - rewrite !lookup_take_lt, !lookup_drop by lia.
    destruct (Nat.lt_ge_cases (a + i) (m_ t)) as [Hp | Hp].
    + rewrite <- Nat.add_assoc. apply (Inv_leaf dflt t l _ Hinv Hp).
    + rewrite !(proj2 (lookup_ge_None _ _)) by lia. reflexivity.
  - rewrite !lookup_take_ge by lia. reflexivity.
Qed.

(** X3.  In a Ready tree whose comparator is total and consistent, every
    node that has a leaf among the valid ones holds the optimum, the first
    on ties, of the elements under it: of the [2 ^ s] elements from
    position [j * 2 ^ s - n_] on, as far as the sequence goes. *)
Theorem node_holds_optimum (t : SegmentTree T) (l : list T) (cmp : comparator T)
    (j s : nat) :
  Ready dflt t l -> compare_ t = Some cmp -> total cmp -> consistent cmp ->
  n_ t <= j * 2 ^ s -> j * 2 ^ s < m_ t + n_ t ->
  get_raw_data t j = scan cmp (seg l (j * 2 ^ s - n_ t) (2 ^ s)).
Proof.
  intros Hr Hc Ht Hcs Hj1 Hj2. apply Ready_Inv in Hr as Hinv.
  pose proof (Inv_data_length dflt t l Hinv) as Hlen.
  destruct Hinv as (cmp' & L & Hc' & _ & _ & _ & _ & _ & _ & _ & Hw).
  rewrite Hc in Hc'. injection Hc' as <-.
  pose proof (pow2_pos s) as Hs.
  assert (Hjl : j < m_ t + n_ t) by nia.
  unfold get_raw_data.
  destruct (Nat.ltb_spec j (m_ t + n_ t)) as [_ | Hge]; [| lia].
  rewrite (lookup_val dflt (data_ t) j) by lia.
  rewrite <- (node_scan_valid cmp (m_ t) (n_ t) (data_ t) Ht Hcs Hlen Hw s j Hj1 Hj2).
  rewrite <- (seg_leaves t l _ _ (Ready_Inv dflt t l Hr)).
  replace (n_ t + (j * 2 ^ s - n_ t)) with (j * 2 ^ s) by lia. reflexivity.
Qed.

Lemma seg_all (l : list T) k : length l <= k -> seg l 0 k = l.
Proof. intros H. unfold seg. rewrite drop_0. apply take_ge. exact H. Qed.

(** X4.  In a Ready tree whose comparator is total and consistent, the
    root slot 1 holds the optimum of the whole sequence, and the query over
    all positions returns it. *)
Theorem root_holds_optimum (t : SegmentTree T) (l : list T) (cmp : comparator T) :
  Ready dflt t l -> compare_ t = Some cmp -> total cmp -> consistent cmp ->
  exists v tr,
    get_value t 0 (length l - 1) = Ok (v, tr) /\
    get_raw_data t 1 = Some v /\ scan cmp l = Some v.
Proof.
  intros Hr Hc Ht Hcs. apply Ready_Inv in Hr as Hinv.
  pose proof (Inv_length dflt t l Hinv) as Hll.
  pose proof (Inv_data_length dflt t l Hinv) as Hlen.
  destruct Hinv as (cmp' & L & Hc' & Hn & Hm1 & Hmn & _ & _ & _ & _ & Hw).
  rewrite Hc in Hc'. injection Hc' as <-.
  destruct (get_value_spec dflt t l 0 (length l - 1) (Ready_Inv dflt t l Hr)
              ltac:(lia) ltac:(lia)) as (r & tr & Hg & _ & _ & Hsem & _).
  specialize (Hsem cmp Hc Ht Hcs). unfold sublist in Hsem.
  rewrite seg_all in Hsem by lia.
  exists (cell (data_ t) r), tr. split; [exact Hg |]. split; [| exact Hsem].
  rewrite <- Hsem. unfold get_raw_data.
  destruct (Nat.ltb_spec 1 (m_ t + n_ t)) as [_ | Hge]; [| lia].
  rewrite (lookup_val dflt (data_ t) 1) by lia.
  rewrite <- (node_scan_valid cmp (m_ t) (n_ t) (data_ t) Ht Hcs Hlen Hw L 1)
    by (rewrite Hn; lia).
  rewrite Nat.mul_1_l, <- Hn.
  replace (n_ t) with (n_ t + 0) at 1 by lia.
  rewrite (seg_leaves t l 0 (n_ t) (Ready_Inv dflt t l Hr)).
  rewrite seg_all by lia. reflexivity.
Qed.

(** X9.  In a Ready tree whose comparator is total and consistent, the
    result over a range is the optimum of the results over its two parts. *)
Theorem get_value_split (t : SegmentTree T) (l : list T) (cmp : comparator T)
    (a b c : nat) :
  Ready dflt t l -> compare_ t = Some cmp -> total cmp -> consistent cmp ->
  a <= b -> b < c -> c < length l ->
  exists x y tr1 tr2 tr3,
    get_value t a b = Ok (x, tr1) /\
    get_value t (b + 1) c = Ok (y, tr2) /\
    get_value t a c = Ok (best cmp x y, tr3).
Proof.
  intros Hr Hc Ht Hcs Hab Hbc Hcl. apply Ready_Inv in Hr as Hinv.
  rewrite (Inv_length dflt t l Hinv) in Hcl.
  destruct (get_value_spec dflt t l a b Hinv ltac:(lia) ltac:(lia))
    as (r1 & tr1 & Hg1 & _ & _ & Hsem1 & _).
  destruct (get_value_spec dflt t l (b + 1) c Hinv ltac:(lia) ltac:(lia))
    as (r2 & tr2 & Hg2 & _ & _ & Hsem2 & _).
  destruct (get_value_spec dflt t l a c Hinv ltac:(lia) ltac:(lia))
    as (r3 & tr3 & Hg3 & _ & _ & Hsem3 & _).
  specialize (Hsem1 cmp Hc Ht Hcs). specialize (Hsem2 cmp Hc Ht Hcs).
  specialize (Hsem3 cmp Hc Ht Hcs). unfold sublist in *.
  replace (c + 1 - a) with ((b + 1 - a) + (c + 1 - (b + 1))) in Hsem3 by lia.
  rewrite seg_app in Hsem3.
  replace (a + (b + 1 - a)) with (b + 1) in Hsem3 by lia.
  rewrite (scan_app cmp Ht Hcs _ _ _ _ Hsem1 Hsem2) in Hsem3.
  injection Hsem3 as Heq.
  exists (cell (data_ t) r1), (cell (data_ t) r2), tr1, tr2, tr3.
  split; [exact Hg1 |]. split; [exact Hg2 |]. rewrite Heq. exact Hg3.
Qed.

(** The nodes in use are a function of the leaves. *)
Lemma winv_canonical (cmp : comparator T) m n (d d' : list T) :
  WInv dflt cmp m n d -> WInv dflt cmp m n d' ->
  (forall p, p < m -> d !! (n + p) = d' !! (n + p)) ->
  forall s j, n <= j * 2 ^ s -> j * 2 ^ s < m + n -> cell d j = cell d' j.
Proof.
  intros Hw Hw' Hleaf. induction s as [| s IH]; intros j Hj1 Hj2.
  - rewrite Nat.pow_0_r, Nat.mul_1_r in *. apply val_agree.
    replace j with (n + (j - n)) by lia. apply Hleaf. lia.
  - pose proof (pow2_pos s) as Hs.
    pose proof (Hw s j Hj1 Hj2) as H1. pose proof (Hw' s j Hj1 Hj2) as H2.
    unfold wnode in H1, H2. rewrite H1, H2.
    rewrite Nat.pow_succ_r' in Hj1, Hj2.
    rewrite (IH (j * 2)) by lia.
    destruct (Nat.ltb_spec ((j * 2 + 1) * 2 ^ s) (m + n)) as [Hlt | Hge];
      [| reflexivity].
    rewrite (IH (j * 2 + 1)) by lia. reflexivity.
Qed.

(** X5.  The update history does not show: two Ready trees over the same
    element sequence with the same comparator (one built by [prepare], the
    other reached through [set_leaf] calls) have the same sizes, hold the
    same value in every node that overlaps a valid leaf, and answer every
    valid query alike, with the same reads; no property of the comparator
    is needed. *)
Theorem history_independent (t t' : SegmentTree T) (l : list T) :
  Ready dflt t l -> Ready dflt t' l -> compare_ t = compare_ t' ->
  m_ t = m_ t' /\ n_ t = n_ t' /\
  (forall j, 1 <= j -> overlaps (m_ t) (n_ t) j -> data_ t !! j = data_ t' !! j) /\
  (forall from to, from <= to -> to < length l ->
     get_value t' from to = get_value t from to).
Proof.
  intros Hr Hr' Hceq. apply Ready_Inv in Hr as Hinv. apply Ready_Inv in Hr' as Hinv'.
  pose proof (Inv_length dflt t l Hinv) as Hll.
  pose proof (Inv_length dflt t' l Hinv') as Hll'.
  pose proof (Inv_data_length dflt t l Hinv) as Hlen.
  pose proof (Inv_data_length dflt t' l Hinv') as Hlen'.
  destruct Hinv as (cmp & L & Hc & Hn & Hm1 & Hmn & HL & _ & _ & Hleaf & Hw).
  destruct Hinv' as (cmp' & L' & Hc' & Hn' & _ & Hmn' & HL' & _ & _ & Hleaf' & Hw').
  assert (Hm : m_ t = m_ t') by lia.
  assert (Hnn : n_ t = n_ t').
  { rewrite Hn, Hn'. rewrite Hn in Hmn. rewrite Hn' in Hmn'. rewrite <- Hm in Hmn', HL'.
    apply (pow2_bracket_unique (m_ t)); assumption. }
  rewrite Hc, Hc' in Hceq. injection Hceq as <-.
  rewrite <- Hm, <- Hnn in Hw', Hleaf', Hlen'.
  assert (Hcan : forall s j, n_ t <= j * 2 ^ s -> j * 2 ^ s < m_ t + n_ t ->
                   data_ t !! j = data_ t' !! j).
  { intros s j Hj1 Hj2. pose proof (pow2_pos s) as Hs.
    assert (j < m_ t + n_ t) by nia.
    rewrite (lookup_val dflt (data_ t) j), (lookup_val dflt (data_ t') j) by lia.
    f_equal. apply (winv_canonical cmp (m_ t) (n_ t) _ _ Hw Hw') with (s := s); auto.
    intros p Hp. rewrite Hleaf, Hleaf' by lia. reflexivity. }
  split; [exact Hm |]. split; [exact Hnn |]. split.
  - intros j Hj Hov. rewrite Hn in *.
    assert (Hj2 : j < 2 * 2 ^ L).
    { destruct Hov as (p & Hp & k & Hk). apply div_pow2_bounds in Hk as [Hk _].
      pose proof (pow2_pos k). nia. }
    destruct (height_exists L j Hj Hj2) as (s & Hs1 & Hs2).
    apply (Hcan s j Hs1). apply (overlaps_iff L (m_ t) j s Hmn Hs1 Hs2). exact Hov.
  - intros from to Hft Hto. rewrite Hll in Hto.
    destruct (get_value_spec dflt t l from to (Ready_Inv dflt t l Hr) Hft Hto)
      as (r & tr & Hg & _ & _ & _ & Hag).
    rewrite Hg. apply Hag; [lia | lia | congruence |].
    split; [lia |]. intros q (s & Hs1 & Hs2). symmetry.
    apply (Hcan s q); pose proof (pow2_pos s); nia.
Qed.

End Semantics.

Lemma writes_app tr1 tr2 : writes (tr1 ++ tr2) = writes tr1 + writes tr2.
Proof. unfold writes. rewrite List.filter_app, length_app. reflexivity. Qed.

Section Cost.

Context {T : Type}.
Variable dflt : T.
Variable cmp : comparator T.

Abbreviation cell := (val dflt).

Lemma choose_child_trace h e (d : list T) :
  h <= e -> e < length d ->
  exists h' tr,
    choose_child (Some cmp) h (h + 1) e d = Ok (h', d, tr) /\
    h' <= e /\ writes tr = 0 /\ length tr <= 2.
Proof.
  intros Hh He. unfold choose_child.
  destruct (Nat.leb_spec (h + 1) e) as [Hk | Hk].
  - rewrite (bind_ok _ _ _ _ _ _ (read_ok dflt d h ltac:(lia))).
    rewrite (bind_ok _ _ _ _ _ _ (read_ok dflt d (h + 1) ltac:(lia))).
    unfold call_compare, bind, ret.
    destruct (0 <? cmp (cell d h) (cell d (h + 1)))%Z;
      eexists _, _; (split; [reflexivity |]); cbn; repeat split; lia.
  - exists h, []. unfold ret. cbn. repeat split; lia.
Qed.

(** The loop of [update] makes one round, hence one assignment, for each
    binary digit of the leaf slot it starts from. *)
Lemma update_loop_count fuel : forall i e (d : list T) k,
  i < fuel -> i <= e -> e < length d -> 2 ^ k <= i -> i < 2 ^ S k ->
  exists d' tr,
    update_loop (Some cmp) fuel i e d = Ok (tt, d', tr) /\
    writes tr = S k /\ length tr <= 4 * S k.
Proof.
  induction fuel as [| fuel IH]; intros i e d k Hf Hie He Hk1 Hk2; [lia |].
  pose proof (pow2_pos k) as Hpk.
  cbn [update_loop]. destruct (Nat.ltb_spec 0 i) as [Hi | Hi]; [| lia].
  set (p := i / 2).
  assert (Hp : p * 2 <= i).
  { unfold p. rewrite Nat.mul_comm. apply Nat.Div0.mul_div_le. }
  assert (Hpi : p < i) by (unfold p; apply Nat.div_lt; lia).
  destruct (choose_child_trace (p * 2) e d ltac:(lia) He)
    as (h' & trc & Hc & Hh'e & Hwc & Hlc).
  rewrite (bind_ok _ _ _ _ _ _ Hc).
  rewrite (bind_ok _ _ _ _ _ _ (read_ok dflt d h' ltac:(lia))).
  rewrite (bind_ok _ _ _ _ _ _ (write_ok d p (cell d h') ltac:(lia))).
  assert (Hl1 : length (<[p:=cell d h']> d) = length d) by apply length_insert.
  assert (Hpe : p <= e / 2) by (unfold p; apply Nat.Div0.div_le_mono; lia).
  assert (He2 : e / 2 <= e) by (apply Nat.Div0.div_le_upper_bound; lia).
  destruct k as [| k].
  - (* the round of the root: the next test of the loop fails *)
    assert (Hp0 : p = 0) by (cbn in Hk2; lia).
    rewrite Hp0. destruct fuel as [| fuel]; [lia |]. cbn [update_loop Nat.ltb Nat.leb].
    unfold ret. eexists _, _. split; [reflexivity |].
    rewrite !writes_app, !length_app, Hwc. cbn. lia.
  - rewrite Nat.pow_succ_r' in Hk1. rewrite (Nat.pow_succ_r' 2 (S k)) in Hk2.
    assert (Hq1 : 2 ^ k <= p) by (unfold p; apply Nat.div_le_lower_bound; lia).
    assert (Hq2 : p < 2 ^ S k) by (unfold p; apply Nat.Div0.div_lt_upper_bound; lia).
    destruct (IH p (e / 2) (<[p:=cell d h']> d) k ltac:(lia) Hpe ltac:(lia) Hq1 Hq2)
      as (d' & tr' & Hrun & Hw' & Hl').
    rewrite Hrun. eexists _, _. split; [reflexivity |].
    rewrite !writes_app, !length_app, Hwc, Hw'. cbn. lia.
Qed.

End Cost.

Section SetLeafCost.

Context {T : Type}.
Variable dflt : T.

(** X10.  [set_leaf] on a Ready tree costs what its comment says, a number
    of steps linear in [log2 n_]: it assigns the leaf and then one slot per
    round of the loop of [update], [log2 n_ + 2] assignments in all (the
    last one to slot 0), and evaluates at most [4 * log2 n_ + 5] subscripts. *)
Theorem set_leaf_cost (t : SegmentTree T) (l : list T) (i : nat) (v : T) :
  Ready dflt t l -> i < length l ->
  exists t' tr,
    set_leaf t i v = Ok (t', tr) /\
    writes tr = Nat.log2 (n_ t) + 2 /\
    length tr <= 4 * Nat.log2 (n_ t) + 5.
Proof.
  intros Hr Hi. apply Ready_Inv in Hr as Hinv.
  rewrite (Inv_length dflt t l Hinv) in Hi.
  destruct Hinv as (cmp' & L & Hc & Hn & Hm1 & Hmn & _ & Hlen & _).
  pose proof (pow2_pos L) as HpL.
  unfold set_leaf, set_leaf_body. rewrite Hn in *.
  rewrite Nat.log2_pow2 by lia.
  rewrite (bind_ok _ _ _ _ _ _ (assert_true _ _ _ (proj2 (Nat.ltb_lt i _) Hi))).
  rewrite (bind_ok _ _ _ _ _ _ (set_leaf_simply_spec _ _ i v _ Hi Hlen)).
  unfold update.
  rewrite (bind_ok _ _ _ _ _ _ (assert_true _ _ _ (proj2 (Nat.ltb_lt i _) Hi))).
  rewrite Hc.
  destruct (update_loop_count dflt cmp' (S (i + 2 ^ L)) (i + 2 ^ L) (m_ t + 2 ^ L - 1)
              (<[2 ^ L + i:=v]> (data_ t)) L)
    as (d' & tr & Hrun & Hw & Hl);
    [lia | lia | rewrite length_insert; lia | lia | rewrite Nat.pow_succ_r'; lia |].
  rewrite Hrun. eexists _, _. split; [reflexivity |].
  rewrite !writes_app, !length_app, Hw. cbn. lia.
Qed.

End SetLeafCost.

Lemma writes_reads tr : Forall (fun a => exists q, a = Read q) tr -> writes tr = 0.
Proof.
  induction 1 as [| a tr (q & ->) _ IH]; [reflexivity |]. exact IH.
Qed.

Section QueryCost.

Context {T : Type}.
Variable dflt : T.
Variable cmp : comparator T.
Variables (L m from to : nat) (d : list T).

Hypothesis Hm : m <= 2 ^ L.
Hypothesis Hfrom : 1 <= from.
Hypothesis Hft : from <= to.
Hypothesis Hto : to <= m.
Hypothesis Hlen : length d = m + 2 ^ L.

Lemma agrees_refl : agrees (2 ^ L) from to d d.
Proof. split; auto. Qed.

(** A node that the query covers at one end costs two reads a level, any
    other node four. *)
Lemma get_value_sub_cost fuel : forall s index left right r tr,
  s < fuel ->
  2 ^ L + left = index * 2 ^ s + 1 ->
  2 ^ L + right = (index + 1) * 2 ^ s ->
  get_value_sub (Some cmp) fuel from to index left right d = Ok (r, d, tr) ->
  (right < from \/ to < left -> tr = []) /\
  (from <= left -> right <= to -> tr = []) /\
  (from <= left \/ right <= to -> length tr <= 2 * s) /\
  length tr <= 4 * s.
Proof.
  induction fuel as [| fuel IH]; intros s index left right r tr Hs Hl Hr Hrun; [lia |].
  pose proof (pow2_pos s) as Hps. pose proof (pow2_pos L) as HL.
  cbn [get_value_sub] in Hrun.
  destruct (Nat.ltb_spec right from) as [Hrf | Hrf];
    [| destruct (Nat.ltb_spec to left) as [Htl | Htl]]; cbn [orb] in Hrun.
  1, 2: injection Hrun as <- <-; cbn; repeat split; intros; lia.
  destruct (Nat.leb_spec from left) as [Hfl | Hfl];
    [destruct (Nat.leb_spec right to) as [Hrt | Hrt] |]; cbn [andb] in Hrun.
  { injection Hrun as <- <-. cbn. repeat split; intros; lia. }
  all: destruct s as [| s']; [rewrite Nat.pow_0_r in *; lia |].
  all: pose proof (pow2_pos s') as Hps'.
  all: rewrite (Nat.pow_succ_r' 2 s') in *.
  all: assert (Hcenter : (left + right) / 2 = left + 2 ^ s' - 1)
         by (replace (left + right) with (2 * (left + 2 ^ s' - 1) + 1) by lia;
             apply half_odd).
  all: rewrite Hcenter in Hrun.
  all: destruct (get_value_sub_spec dflt cmp L m from to d Hm Hfrom Hft Hto Hlen fuel
                   s' (index * 2) left (left + 2 ^ s' - 1)
                   ltac:(lia) ltac:(lia) ltac:(lia))
         as (i & tri & Hruni & Hi0 & Hin_i & _).
  all: destruct (get_value_sub_spec dflt cmp L m from to d Hm Hfrom Hft Hto Hlen fuel
                   s' (index * 2 + 1) (left + 2 ^ s' - 1 + 1) right
                   ltac:(lia) ltac:(lia) ltac:(lia))
         as (j & trj & Hrunj & Hj0 & Hin_j & _).
  all: specialize (Hruni d agrees_refl); specialize (Hrunj d agrees_refl).
  all: destruct (IH s' (index * 2) left (left + 2 ^ s' - 1) i tri
                   ltac:(lia) ltac:(lia) ltac:(lia) Hruni)
         as (Hi_out & Hi_in & Hi_end & Hi_any).
  all: destruct (IH s' (index * 2 + 1) (left + 2 ^ s' - 1 + 1) right j trj
                   ltac:(lia) ltac:(lia) ltac:(lia) Hrunj)
         as (Hj_out & Hj_in & Hj_end & Hj_any).
  all: rewrite (bind_ok _ _ _ _ _ _ Hruni) in Hrun.
  all: rewrite (bind_ok _ _ _ _ _ _ Hrunj) in Hrun.
  all: destruct (Nat.eqb_spec j 0) as [Hj | Hj].
  1, 3: (* nothing on the right *)
    assert (Hno : to < left + 2 ^ s' - 1 + 1)
      by (destruct (Nat.lt_ge_cases to (left + 2 ^ s' - 1 + 1)) as [| Hge]; [assumption |];
          destruct (Hin_j ltac:(lia) Hge) as [Hins _];
          apply inside_pos in Hins; lia);
    rewrite (Hj_out ltac:(lia)) in Hrun; unfold ret in Hrun;
    injection Hrun as <- <-; rewrite !app_nil_r;
    split; [intros; lia |]; split; [intros; lia |];
    split; [intros [? | ?]; [specialize (Hi_end ltac:(lia)); lia | lia] | lia].
  all: destruct (Nat.eqb_spec i 0) as [Hi | Hi].
  1, 3: (* nothing on the left *)
    assert (Hno : left + 2 ^ s' - 1 < from)
      by (destruct (Nat.lt_ge_cases (left + 2 ^ s' - 1) from) as [| Hge]; [assumption |];
          destruct (Hin_i Hge ltac:(lia)) as [Hins _];
          apply inside_pos in Hins; lia);
    rewrite (Hi_out ltac:(lia)) in Hrun; unfold ret in Hrun;
    injection Hrun as <- <-; rewrite !app_nil_r; cbn [app];
    split; [intros; lia |]; split; [intros; lia |];
    split; [intros [? | ?]; [lia | specialize (Hj_end ltac:(lia)); lia] | lia].
  (* both halves found a node *)
  all: assert (Hli : from <= left + 2 ^ s' - 1)
         by (destruct (Nat.lt_ge_cases (left + 2 ^ s' - 1) from);
             [specialize (Hi0 ltac:(lia)); lia | lia]).
  all: assert (Hlj : left + 2 ^ s' - 1 + 1 <= to)
         by (destruct (Nat.lt_ge_cases to (left + 2 ^ s' - 1 + 1));
             [specialize (Hj0 ltac:(lia)); lia | lia]).
  all: destruct (Hin_i ltac:(lia) ltac:(lia)) as [Hins_i _].
  all: destruct (Hin_j ltac:(lia) ltac:(lia)) as [Hins_j _].
  all: rewrite (bind_ok _ _ _ _ _ _
                  (agrees_read dflt L m from to d Hm Hfrom Hft Hto Hlen d i
                     agrees_refl Hins_i)) in Hrun.
  all: rewrite (bind_ok _ _ _ _ _ _
                  (agrees_read dflt L m from to d Hm Hfrom Hft Hto Hlen d j
                     agrees_refl Hins_j)) in Hrun.
  all: unfold call_compare, bind, ret in Hrun.
  all: specialize (Hi_end ltac:(lia)); specialize (Hj_end ltac:(lia)).
  all: assert (Htr : tr = tri ++ trj ++ [Read i; Read j])
         by (destruct (0 >=? cmp (val dflt d i) (val dflt d j))%Z;
             injection Hrun as <- <-; reflexivity).
  all: rewrite Htr, !length_app; cbn [length].
  all: split; [intros; lia |]; split; [intros; lia |]; split; [| lia].
  - intros _. rewrite (Hi_in ltac:(lia) ltac:(lia)). cbn. lia.
  - intros [? | ?]; [lia |]. rewrite (Hj_in ltac:(lia) ltac:(lia)). cbn. lia.
Qed.

End QueryCost.

Section QueryContract.

Context {T : Type}.
Variable dflt : T.


(** X13.  [get_value] on a Ready tree costs what its comment says: it
    assigns nothing and evaluates at most [4 * log2 n_ + 1] subscripts. *)
Theorem get_value_cost (t : SegmentTree T) (l : list T) (from to : nat) :
  Ready dflt t l -> from <= to -> to < length l ->
  exists v tr,
    get_value t from to = Ok (v, tr) /\
    writes tr = 0 /\ length tr <= 4 * Nat.log2 (n_ t) + 1.
Proof.
  intros Hr Hft Hto. apply Ready_Inv in Hr as Hinv.
  rewrite (Inv_length dflt t l Hinv) in Hto.
  destruct (get_value_spec dflt t l from to Hinv Hft Hto)
    as (r & tr & Hg & _ & Htr & _).
  exists (val dflt (data_ t) r), tr. split; [exact Hg |]. split.
  { apply writes_reads. eapply Forall_impl; [exact Htr |]. intros a (q & -> & _). eauto. }
  destruct Hinv as (cmp & L & Hc & Hn & Hm1 & Hmn & _ & Hlen & _).
  pose proof (pow2_pos L) as HpL. rewrite Hn in *. rewrite Nat.log2_pow2 by lia.
  assert (HLn : L < S (2 ^ L)) by (pose proof (Nat.pow_gt_lin_r 2 L); lia).
  destruct (get_value_sub_spec dflt cmp L (m_ t) (from + 1) (to + 1) (data_ t)
              Hmn ltac:(lia) ltac:(lia) ltac:(lia) Hlen (S (2 ^ L)) L 1 1 (2 ^ L)
              HLn ltac:(lia) ltac:(lia))
    as (r' & tr' & Hrun & _ & Hin & _).
  assert (Hag : agrees (2 ^ L) (from + 1) (to + 1) (data_ t) (data_ t))
    by (split; auto).
  specialize (Hrun _ Hag).
  destruct (get_value_sub_cost dflt cmp L (m_ t) (from + 1) (to + 1) (data_ t)
              Hmn ltac:(lia) ltac:(lia) ltac:(lia) Hlen (S (2 ^ L)) L 1 1 (2 ^ L) r' tr'
              HLn ltac:(lia) ltac:(lia) Hrun) as (_ & _ & _ & Hcost).
  destruct (Hin ltac:(lia) ltac:(lia)) as [Hins _].
  unfold get_value, get_value_body in Hg. rewrite Hn, Hc in Hg.
  rewrite (bind_ok _ _ _ _ _ _
             (assert_true _ _ _ (proj2 (Nat.leb_le from to) Hft))) in Hg.
  rewrite (bind_ok _ _ _ _ _ _
             (assert_true _ _ _ (proj2 (Nat.ltb_lt to (m_ t)) Hto))) in Hg.
  rewrite (bind_ok _ _ _ _ _ _ Hrun) in Hg.
  assert (Hr0 : (r' =? 0) = false)
    by (apply Nat.eqb_neq; apply inside_pos in Hins; lia).
  rewrite Hr0 in Hg. cbn [negb] in Hg.
  rewrite (bind_ok _ _ _ _ _ _ (assert_true _ _ _ eq_refl)) in Hg.
  rewrite (read_ok dflt) in Hg by (apply inside_lt in Hins; lia).
  injection Hg as _ <-. rewrite !length_app. cbn. lia.
Qed.

End QueryContract.

(** The number of rounds of [for (i = start; i < n; i += step)]. *)
Lemma rounds_step n i step :
  1 <= step -> i < n ->
  (n - i + step - 1) / step = S ((n - (i + step) + step - 1) / step).
Proof.
  intros Hs Hi. destruct (Nat.le_gt_cases step (n - i)) as [Hge | Hlt].
  - replace (n - i + step - 1) with ((n - (i + step) + step - 1) + 1 * step) by lia.
    rewrite Nat.div_add by lia. lia.
  - replace (n - (i + step) + step - 1) with (step - 1) by lia.
    rewrite (Nat.div_small (step - 1)) by lia.
    symmetry. apply (Nat.div_unique _ step 1 (n - i - 1)); lia.
Qed.

Section BuildCost.

Context {T : Type}.
Variable dflt : T.

Lemma for_loop_count (I : list T -> Prop) (body : nat -> M T unit) n step w :
  1 <= step ->
  (forall i d, i < n -> I d ->
     exists d' tr, body i d = Ok (tt, d', tr) /\ I d' /\ writes tr = w) ->
  forall fuel i d, n - i < fuel -> I d ->
    exists d' tr, for_loop fuel i n step body d = Ok (tt, d', tr) /\ I d' /\
                  writes tr = w * ((n - i + step - 1) / step).
Proof.
  intros Hstep Hbody. induction fuel as [| fuel IH]; intros i d Hf HI; [lia |].
  cbn [for_loop]. destruct (Nat.ltb_spec i n) as [Hlt | Hge].
  - destruct (Hbody i d Hlt HI) as (d1 & tr1 & Hrun1 & HI1 & Hw1).
    rewrite (bind_ok _ _ _ _ _ _ Hrun1).
    destruct (IH (i + step) d1 ltac:(lia) HI1) as (d' & tr' & Hrun & HI' & Hw').
    rewrite Hrun. exists d', (tr1 ++ tr'). split; [reflexivity |]. split; [exact HI' |].
    rewrite writes_app, Hw1, Hw', (rounds_step n i step Hstep Hlt). lia.
  - exists d, []. unfold ret. split; [reflexivity |]. split; [exact HI |].
    replace (n - i + step - 1) with (step - 1) by lia.
    rewrite Nat.div_small by lia. cbn. lia.
Qed.

Lemma update_count (cmp : comparator T) L m i (d : list T) :
  i < m -> m <= 2 ^ L -> length d = m + 2 ^ L ->
  exists d' tr,
    update m (2 ^ L) (Some cmp) i d = Ok (tt, d', tr) /\
    length d' = m + 2 ^ L /\ writes tr = S L.
Proof.
  intros Hi Hm Hl. pose proof (pow2_pos L) as HL.
  destruct (update_spec dflt cmp L m i d Hi Hm Hl) as (d' & tr & Hrun & Hlen & _).
  exists d', tr. split; [exact Hrun |]. split; [lia |].
  unfold update in Hrun.
  rewrite (bind_ok _ _ _ _ _ _ (assert_true _ _ d (proj2 (Nat.ltb_lt i m) Hi))) in Hrun.
  destruct (update_loop_count dflt cmp (S (i + 2 ^ L)) (i + 2 ^ L) (m + 2 ^ L - 1) d L)
    as (d'' & tr'' & Hrun' & Hw & _);
    [lia | lia | lia | lia | rewrite Nat.pow_succ_r'; lia |].
  rewrite Hrun' in Hrun. injection Hrun as _ <-. exact Hw.
Qed.

(** X14.  [prepare] over [m] elements costs what its two loops show: one
    assignment for each leaf, then a run of [update] ([log2 n_ + 1]
    assignments) for every second leaf only. *)
Theorem prepare_cost (t0 : SegmentTree T) (data : list T) (cmp : comparator T) :
  data <> [] ->
  exists t' tr,
    prepare dflt t0 (Some data) (Some cmp) = Ok (t', tr) /\
    writes tr = length data + (Nat.log2 (n_ t') + 1) * ((length data + 1) / 2).
Proof.
  intros Hd.
  assert (Hm1 : 1 <= length data) by (destruct data; [congruence | simpl; lia]).
  unfold prepare. destruct (Nat.eqb_spec (length data) 0) as [| _]; [lia |].
  destruct (grow_spec (S (length data)) 0 (length data) ltac:(simpl; lia) ltac:(auto))
    as (L & Hg & HL1 & _).
  change (2 ^ 0) with 1 in Hg. rewrite Hg. pose proof (pow2_pos L) as HpL.
  set (m := length data) in *. unfold prepare_body.
  destruct (for_loop_count (fun d => length d = m + 2 ^ L)
              (fun i => match data !! i with
                        | Some x => set_leaf_simply m (2 ^ L) i x
                        | None => fail (OutOfBounds i)
                        end) m 1 1 ltac:(lia))
    with (fuel := S m) (i := 0) (d := resize (m + 2 ^ L) dflt (data_ t0))
    as (d1 & tr1 & Hrun1 & Hl1 & Hw1).
  { intros i d0 Hi Hl0.
    destruct (lookup_lt_is_Some_2 data i Hi) as [x Hx]. rewrite Hx.
    rewrite (set_leaf_simply_spec m (2 ^ L) i x d0 Hi Hl0).
    eexists _, _. split; [reflexivity |]. split; [| reflexivity].
    rewrite length_insert. exact Hl0. }
  { lia. }
  { apply length_resize. }
  rewrite (bind_ok _ _ _ _ _ _ Hrun1).
  destruct (for_loop_count (fun d => length d = m + 2 ^ L)
              (update m (2 ^ L) (Some cmp)) m 2 (S L) ltac:(lia))
    with (fuel := S m) (i := 0) (d := d1)
    as (d2 & tr2 & Hrun2 & Hl2 & Hw2).
  { intros i d0 Hi Hl0. apply update_count; assumption. }
  { lia. }
  { exact Hl1. }
  rewrite Hrun2. eexists _, _. split; [reflexivity |]. cbn [n_].
  rewrite writes_app, Hw1, Hw2, Nat.log2_pow2 by lia.
  replace (m - 0 + 1 - 1) with m by lia. rewrite Nat.div_1_r.
  replace (m - 0 + 2 - 1) with (m + 1) by lia. lia.
Qed.

End BuildCost.

Lemma updated_ready : Ready 0%Z (tree_of main_updated) (<[9:=(-4)%Z]> main_data).
Proof.
  apply (Ready_set_leaf 0%Z (tree_of main_tree) main_data 9 (-4)%Z _
           (trace_of main_updated) main_ready).
  vm_compute. reflexivity.
Defined.

Lemma rebuilt_ready : Ready 0%Z (tree_of main_rebuilt) (<[9:=(-4)%Z]> main_data).
Proof.
  apply (Ready_prepare 0%Z new_tree (<[9:=(-4)%Z]> main_data) compare _
           (trace_of main_rebuilt)).
  vm_compute. reflexivity.
Defined.

Lemma get_raw_data_guard_witness :
  get_raw_data (tree_of main_tree) 26 = None /\
  is_Some (get_raw_data (tree_of main_tree) 25).
Proof.
  destruct (get_raw_data_guard 0%Z (tree_of main_tree) main_data 26 main_ready)
    as (_ & _ & H26).
  destruct (get_raw_data_guard 0%Z (tree_of main_tree) main_data 25 main_ready)
    as (_ & H25 & _).
  split; [apply H26; vm_compute; lia | apply H25; vm_compute; lia].
Defined.

Lemma get_raw_data_leaf_witness :
  get_raw_data (tree_of main_tree) (n_ (tree_of main_tree) + 3) = main_data !! 3.
Proof.
  apply (get_raw_data_leaf 0%Z (tree_of main_tree) main_data 3 main_ready).
  simpl; lia.
Defined.

Lemma node_holds_optimum_witness :
  get_raw_data (tree_of main_tree) 6
  = scan compare (seg main_data (6 * 2 ^ 2 - n_ (tree_of main_tree)) (2 ^ 2)).
Proof.
  apply (node_holds_optimum 0%Z (tree_of main_tree) main_data compare 6 2 main_ready);
    [vm_compute; reflexivity | exact compare_total | exact compare_consistent
    | vm_compute; lia | vm_compute; lia].
Defined.

Lemma root_holds_optimum_witness :
  exists v tr,
    get_value (tree_of tie_tree) 0 (length tie_data - 1) = Ok (v, tr) /\
    get_raw_data (tree_of tie_tree) 1 = Some v /\ scan compare_key tie_data = Some v.
Proof.
  apply (root_holds_optimum (0%Z, 0) (tree_of tie_tree) tie_data compare_key tie_ready);
    [vm_compute; reflexivity | exact compare_key_total | exact compare_key_consistent].
Defined.

Lemma history_independent_witness :
  n_ (tree_of main_updated) = n_ (tree_of main_rebuilt) /\
  get_value (tree_of main_rebuilt) 7 9 = get_value (tree_of main_updated) 7 9.
Proof.
  destruct (history_independent 0%Z (tree_of main_updated) (tree_of main_rebuilt)
              (<[9:=(-4)%Z]> main_data) updated_ready rebuilt_ready)
    as (_ & Hn & _ & Hq); [vm_compute; reflexivity |].
  split; [exact Hn | apply Hq; [lia | simpl; lia]].
Defined.

Lemma prepare_builds_witness :
  exists t' tr,
    prepare 0%Z new_tree (Some main_data) (Some compare) = Ok (t', tr) /\
    m_ t' = length main_data /\ compare_ t' = Some compare /\
    length (data_ t') = m_ t' + n_ t' /\
    elements t' = main_data /\
    Forall (fun a => slot a < length (data_ t')) tr.
Proof.
  apply (prepare_builds 0%Z new_tree main_data compare). discriminate.
Defined.

Lemma get_value_point_witness :
  exists x tr,
    get_value (tree_of main_tree) 8 8 = Ok (x, tr) /\ main_data !! 8 = Some x /\
    Forall (fun a => a = Read (n_ (tree_of main_tree) + 8)) tr.
Proof.
  apply (get_value_point 0%Z (tree_of main_tree) main_data 8 main_ready).
  simpl; lia.
Defined.

Lemma helpers_keep_apart_witness :
  exists d2 tr,
    update 10 (2 ^ 4) (Some compare) 3 (data_ (tree_of main_tree)) = Ok (tt, d2, tr) /\
    length d2 = length (data_ (tree_of main_tree)) /\
    forall s, 2 ^ 4 <= s -> d2 !! s = data_ (tree_of main_tree) !! s.
Proof.
  destruct (helpers_keep_apart 0%Z 4 10 3 5%Z compare (data_ (tree_of main_tree)))
    as [_ H]; [lia | simpl; lia | vm_compute; reflexivity | exact H].
Defined.

Lemma get_value_split_witness :
  exists x y tr1 tr2 tr3,
    get_value (tree_of main_tree) 1 4 = Ok (x, tr1) /\
    get_value (tree_of main_tree) (4 + 1) 8 = Ok (y, tr2) /\
    get_value (tree_of main_tree) 1 8 = Ok (best compare x y, tr3).
Proof.
  apply (get_value_split 0%Z (tree_of main_tree) main_data compare 1 4 8 main_ready);
    [vm_compute; reflexivity | exact compare_total | exact compare_consistent
    | lia | lia | simpl; lia].
Defined.

Lemma set_leaf_cost_witness :
  exists t' tr,
    set_leaf (tree_of main_tree) 9 (-4)%Z = Ok (t', tr) /\
    writes tr = Nat.log2 (n_ (tree_of main_tree)) + 2 /\
    length tr <= 4 * Nat.log2 (n_ (tree_of main_tree)) + 5.
Proof.
  apply (set_leaf_cost 0%Z (tree_of main_tree) main_data 9 (-4)%Z main_ready).
  simpl; lia.
Defined.


Lemma get_value_cost_witness :
  exists v tr,
    get_value (tree_of main_tree) 3 7 = Ok (v, tr) /\
    writes tr = 0 /\ length tr <= 4 * Nat.log2 (n_ (tree_of main_tree)) + 1.
Proof.
  apply (get_value_cost 0%Z (tree_of main_tree) main_data 3 7 main_ready);
    [lia | simpl; lia].
Defined.

Lemma prepare_cost_witness :
  exists t' tr,
    prepare 0%Z new_tree (Some main_data) (Some compare) = Ok (t', tr) /\
    writes tr = length main_data + (Nat.log2 (n_ t') + 1) * ((length main_data + 1) / 2).
Proof.
  apply (prepare_cost 0%Z new_tree main_data compare). discriminate.
Defined.
